(** * Cities API: a shallow embedding of [main.py] and its properties

    The service answers [GET /cities] over a table of city records read
    from a tab-delimited GeoNames dump.  This development embeds the
    loader [load_cities], the request handler [get_cities] (validation,
    the three filters, sorting, pagination) and the rate-limit boundary,
    and states the properties of the written specification over them.

    Conventions of the embedding:
    - a Python [str] is the [string] of its UTF-8 bytes: equality is
      equality, the empty text is the empty string, and the order of
      the bytes is the order of the code points;
    - a Python [int] is a [Z];
    - a Python [float] is a primitive binary64 [float];
    - a raised exception is the left injection of a sum, see [result];
    - library functions the program calls but does not define
      ([float()], [int()], [str.lower], [rapidfuzz.fuzz.partial_ratio])
      are section variables: every statement holds whatever they
      compute. *)

From Stdlib Require Import ZArith String Ascii List Floats Lia Bool.
From stdpp Require Import base option list strings gmap sorting.

Open Scope string_scope.
Open Scope Z_scope.

(** ** Exceptions and the error monad *)

(** Which built-in conversion rejected its argument. *)
Inductive conversion := ToFloat | ToInt.

(** The exceptions the program can raise.  [ValueError c s] is what
    [float(s)] ([c = ToFloat]) or [int(s)] ([c = ToInt]) raises on text
    that is not a number; its message carries the text [s] and nothing
    else.  [HTTPException] is the one exception the program raises
    itself. *)
Inductive exn :=
| IndexError
| ValueError (c : conversion) (text : string)
| TypeError
| HTTPException (status_code : Z) (detail : string).

Definition result (A : Type) : Type := exn + A.

Definition ret {A} (x : A) : result A := inr x.
Definition raise {A} (e : exn) : result A := inl e.

Definition bind {A B} (m : result A) (k : A → result B) : result B :=
  match m with
  | inl e => inl e
  | inr x => k x
  end.

Declare Scope result_scope.
Delimit Scope result_scope with result.
Notation "x <- m ;; k" := (bind m (fun x => k))
  (at level 100, m at next level, right associativity) : result_scope.

Definition is_ok {A} (m : result A) : bool :=
  match m with inr _ => true | inl _ => false end.

(** ** Python sequence indexing *)

(** [l[i]]: a negative index counts from the end, an index outside
    [-len, len) raises [IndexError]. *)
Definition py_index {A} (l : list A) (i : Z) : result A :=
  let n := Z.of_nat (length l) in
  let j := if i <? 0 then i + n else i in
  if (0 <=? j) && (j <? n)
  then match l !! Z.to_nat j with
       | Some x => ret x
       | None => raise IndexError
       end
  else raise IndexError.

(** Truth value of a string: the empty string is falsy. *)
Definition truthy (s : string) : bool :=
  match s with EmptyString => false | String _ _ => true end.

(** Truth value of an [Optional[str]]: [None] and [""] are falsy. *)
Definition truthy_opt (o : option string) : bool :=
  match o with None => false | Some s => truthy s end.

(** ** Data model *)

(** One element of [records]: the dict built on line 71, with its six
    keys in insertion order. *)
Record City := mkCity {
  name : string;
  lat : float;
  lng : float;
  tz : string;
  pop : Z;
  loc : string
}.

(** ** Dataset loader *)

Section Loader.

(** [float(s)] and [int(s)]: [None] stands for the [ValueError] the
    built-in raises. *)
Variable py_float : string → option float.
Variable py_int : string → option Z.

Definition float_of (s : string) : result float :=
  match py_float s with
  | Some f => ret f
  | None => raise (ValueError ToFloat s)
  end.

Definition int_of (s : string) : result Z :=
  match py_int s with
  | Some n => ret n
  | None => raise (ValueError ToInt s)
  end.

(** The body of the [for row in reader] loop, lines 65-71, statement by
    statement.  A row is the list of fields [csv.reader] yields. *)
Definition load_row (row : list string) : result City :=
  (name <- py_index row 1 ;;
   s4 <- py_index row 4 ;;
   lat <- float_of s4 ;;
   s5 <- py_index row 5 ;;
   lng <- float_of s5 ;;
   tz <- py_index row (-2) ;;
   s14 <- py_index row 14 ;;
   pop <- (if truthy s14 then int_of s14 else ret 0) ;;
   loc <- py_index row 8 ;;
   ret (mkCity name lat lng tz pop loc))%result.

(** [load_cities] without its cache, from the rows on: the rows are
    converted in file order and the first exception aborts the whole
    load.  Opening the file, decoding it and splitting it into rows
    (lines 62-64) are not part of the model, nor are the exceptions
    they can raise. *)
Fixpoint load_cities (reader : list (list string)) : result (list City) :=
  match reader with
  | [] => ret []
  | row :: rest =>
      (c <- load_row row ;;
       cs <- load_cities rest ;;
       ret (c :: cs))%result
  end.

End Loader.

(** ** The memoised loader and the process state *)

(** [@lru_cache()] on a function of no argument: the first call that
    returns stores its value, later calls return the stored value.  A
    call that raises stores nothing.  [file_reads] counts the calls that
    reached the body of [load_cities], i.e. that opened the file. *)
Record State := mkState {
  cache : option (list City);
  file_reads : nat
}.

(** The state of a freshly started process: importing the module defines
    [load_cities] but does not call it. *)
Definition startup : State := mkState None 0%nat.

(** ** Letter case of ASCII text *)

(** A text all of whose characters are ASCII. *)
Definition ascii_char (c : ascii) : bool := (N_of_ascii c <? 128)%N.

Fixpoint ascii_only (s : string) : bool :=
  match s with
  | EmptyString => true
  | String c s' => ascii_char c && ascii_only s'
  end.

(** The lower-case form of an ASCII text: the letters [A]-[Z] move to
    [a]-[z], every other character is unchanged.  On such a text this
    is what [str.lower] returns; on any other text [str.lower] follows
    the Unicode tables and this function is not it. *)
Definition ascii_lower_char (c : ascii) : ascii :=
  let n := N_of_ascii c in
  if ((65 <=? n) && (n <=? 90))%N then ascii_of_N (n + 32) else c.

Fixpoint ascii_lower (s : string) : string :=
  match s with
  | EmptyString => EmptyString
  | String c s' => String (ascii_lower_char c) (ascii_lower s')
  end.

(** The other case of an ASCII letter; any other character is
    unchanged. *)
Definition ascii_flip_char (c : ascii) : ascii :=
  let n := N_of_ascii c in
  if ((65 <=? n) && (n <=? 90))%N then ascii_of_N (n + 32)
  else if ((97 <=? n) && (n <=? 122))%N then ascii_of_N (n - 32)
  else c.

(** [ascii_recase mask s] flips the case of the letters of [s] at the
    positions [mask] selects; a mask shorter than [s] leaves the rest
    alone.  For an ASCII text [s], as [mask] ranges over all lists this
    ranges over the texts that differ from [s] in the case of letters
    only. *)
Fixpoint ascii_recase (mask : list bool) (s : string) : string :=
  match mask, s with
  | b :: mask', String c s' =>
      String (if b then ascii_flip_char c else c) (ascii_recase mask' s')
  | _, _ => s
  end.

(** ** Values stored in a record and their comparison *)

(** What [c.get(k)] can return: the value of one of the six keys, or
    [None] for any other key. *)
Inductive value :=
| VStr (s : string)
| VFloat (f : float)
| VInt (n : Z)
| VNone.

Definition get (c : City) (k : string) : value :=
  if String.eqb k "name" then VStr (name c)
  else if String.eqb k "lat" then VFloat (lat c)
  else if String.eqb k "lng" then VFloat (lng c)
  else if String.eqb k "tz" then VStr (tz c)
  else if String.eqb k "pop" then VInt (pop c)
  else if String.eqb k "loc" then VStr (loc c)
  else VNone.

(** [a < b] on two values.  Strings compare character by character, by
    code; numbers by value; [None] is ordered with nothing and
    [TypeError] is raised, as it is between a string and a number.  All
    values under one key have the same type (see [get_same_kind]), so
    the one mixed comparison Python would accept, an [int] with a
    [float], never arises from [get]; it is left in the error case. *)
Definition value_lt (a b : value) : result bool :=
  match a, b with
  | VStr x, VStr y => ret (String.ltb x y)
  | VFloat x, VFloat y => ret (PrimFloat.ltb x y)
  | VInt x, VInt y => ret (x <? y)
  | _, _ => raise TypeError
  end.

(** ** Sorting *)

Section Sorted.

Context {A : Type}.
Variable lt : A → A → result bool.

(** [insert x l] puts [x] in front of the first element that is not
    smaller than it: [x] comes from earlier in the input than every
    element of [l], so equal elements keep their input order. *)
Fixpoint insert (x : A) (l : list A) : result (list A) :=
  match l with
  | [] => ret [x]
  | y :: ys =>
      (b <- lt y x ;;
       if b : bool
       then (r <- insert x ys ;; ret (y :: r))
       else ret (x :: y :: ys))%result
  end.

Fixpoint sort_asc (l : list A) : result (list A) :=
  match l with
  | [] => ret []
  | x :: xs => (s <- sort_asc xs ;; insert x s)%result
  end.

(** [sorted(l, reverse=r)] with the comparison [lt] on the elements.
    [list.sort] is a stable sort that only ever asks [<]: insertion
    sorted runs, merged.  It is modelled by the stable insertion sort
    above, which returns the same list whenever [<] orders the keys
    (any two stable sorts agree then, see [apply_sort_is_the_stable_sort]).
    Under one key of this program [<] raises for every pair of records
    or for none (see [get_same_kind]), so the model raises exactly when
    [list.sort] does: when a comparison is made, that is for two
    records or more, and it raises.  Where [<] is defined but does not
    order the keys, as with a NaN among them, the order [list.sort]
    leaves is particular to its merge strategy and is not modelled.
    With [reverse=True] the list is reversed, sorted ascending, and the
    result reversed, which keeps equal elements in input order. *)
Definition sorted (reversed : bool) (l : list A) : result (list A) :=
  if reversed
  then (r <- sort_asc (reverse l) ;; ret (reverse r))%result
  else sort_asc l.

End Sorted.

(** ** Slicing *)

(** [PySlice_AdjustIndices] for a step of 1: a negative bound counts
    from the end, and the bound is then clamped to [0, n]. *)
Definition adjust_index (i n : Z) : Z :=
  if i <? 0 then (if i + n <? 0 then 0 else i + n)
  else if n <=? i then n else i.

(** [l[start:stop]]. *)
Definition slice {A} (l : list A) (start stop : Z) : list A :=
  let n := Z.of_nat (length l) in
  let s := adjust_index start n in
  let e := adjust_index stop n in
  take (Z.to_nat (e - s)) (drop (Z.to_nat s) l).

(** ** Request parameters *)

Module Query.
(** The query parameters of [get_cities], with the names of its
    signature. *)
Record t := mk {
  q : option string;
  tz : option string;
  min_pop : option Z;
  limit : Z;
  offset : Z;
  sort : option string;
  order : string
}.

(** A request that supplies no parameter gets the declared defaults. *)
Definition default : t := mk None None None 50 0 None "asc".

Definition with_q (v : option string) (p : t) : t :=
  mk v (tz p) (min_pop p) (limit p) (offset p) (sort p) (order p).
End Query.

(** ** Responses *)

Inductive Body :=
| Cities (page : list City)
| Detail (detail : string)
| Text (text : string).

Record Response := mkResponse {
  status : Z;
  body : Body
}.

(** The handler registered for [RateLimitExceeded] on line 56. *)
Definition rate_limit_exceeded_handler : Response :=
  mkResponse 429 (Text "Too Many Requests").

(** What the framework sends for the outcome of the handler: the page
    with status 200, an [HTTPException] with its own status and detail,
    and status 500 for any other exception. *)
Definition respond (r : result (list City)) : Response :=
  match r with
  | inr page => mkResponse 200 (Cities page)
  | inl (HTTPException code detail) => mkResponse code (Detail detail)
  | inl _ => mkResponse 500 (Text "Internal Server Error")
  end.

(** ** The request handler *)

Section Handler.

(** [rapidfuzz.fuzz.partial_ratio], a score between 0 and 100. *)
Variable partial_ratio : string → string → float.
(** [str.lower]. *)
Variable lower : string → string.
Variable py_float : string → option float.
Variable py_int : string → option Z.
(** The rows [csv.reader] yields for the file at [in_path]. *)
Variable reader : list (list string).

Definition load_cities_cached (st : State) : State * result (list City) :=
  match cache st with
  | Some records => (st, ret records)
  | None =>
      let r := load_cities py_float py_int reader in
      (mkState (match r with inr records => Some records | inl _ => None end)
               (S (file_reads st)),
       r)
  end.

(** The condition of the comprehension on lines 140-143. *)
Definition matches (q name : string) : bool :=
  (70 <=? partial_ratio (lower q) (lower name))%float.

(** Lines 139-143. *)
Definition filter_q (q : option string) (data : list City) : list City :=
  match q with
  | Some s => if truthy s then filter (λ c, matches s (name c)) data else data
  | None => data
  end.

(** Lines 144-145. *)
Definition filter_tz (tz' : option string) (data : list City) : list City :=
  match tz' with
  | Some s => if truthy s then filter (λ c, tz c = s) data else data
  | None => data
  end.

(** Lines 146-147. *)
Definition filter_min_pop (min_pop : option Z) (data : list City) : list City :=
  match min_pop with
  | Some m => filter (λ c, m ≤ pop c) data
  | None => data
  end.

Definition apply_filters (q tz : option string) (min_pop : option Z)
    (data : list City) : list City :=
  filter_min_pop min_pop (filter_tz tz (filter_q q data)).

(** Lines 148-150. *)
Definition apply_sort (sort : option string) (order : string)
    (data : list City) : result (list City) :=
  match sort with
  | Some k =>
      if truthy k
      then sorted (λ a b, value_lt (get a k) (get b k)) (String.eqb order "desc") data
      else ret data
  | None => ret data
  end.

(** Line 152. *)
Definition paginate {A} (data : list A) (offset limit : Z) : list A :=
  slice data offset (offset + limit).

(** Lines 139-154: what the handler does with the loaded table. *)
Definition query (p : Query.t) (data : list City) : result (list City) :=
  (data <- apply_sort (Query.sort p) (Query.order p)
             (apply_filters (Query.q p) (Query.tz p) (Query.min_pop p) data) ;;
   ret (paginate data (Query.offset p) (Query.limit p)))%result.

Definition no_filter_detail : string :=
  "Please provide at least one filter: q, tz, or min_pop".

(** The body of [get_cities], lines 131-154. *)
Definition get_cities (p : Query.t) (st : State) : State * result (list City) :=
  if negb (truthy_opt (Query.q p)) && negb (truthy_opt (Query.tz p))
     && negb (bool_decide (is_Some (Query.min_pop p)))
  then (st, raise (HTTPException 400 no_filter_detail))
  else
    let '(st', loaded) := load_cities_cached st in
    (st', (data <- loaded ;; query p data)%result).

End Handler.

(** [n] successive calls of the memoised loader, with their results in
    call order. *)
Fixpoint load_repeatedly (py_float : string → option float) (py_int : string → option Z)
    (reader : list (list string)) (n : nat) (st : State)
    : State * list (result (list City)) :=
  match n with
  | O => (st, [])
  | S n' =>
      let '(st1, r) := load_cities_cached py_float py_int reader st in
      let '(st2, rs) := load_repeatedly py_float py_int reader n' st1 in
      (st2, r :: rs)
  end.

(** ** Rate limiting *)

Module Limiter.

(** Modelled from the spec: the quota of the limit string
    ["10/minute"] on line 92, whose admission algorithm is in the
    [slowapi] package and not in this repository: 10 requests. *)
Definition quota : nat := 10.

(** Modelled from the spec: the length in seconds of the rolling
    window of the limit ["10/minute"]; the algorithm that uses it is
    not in this repository. *)
Definition window : Z := 60.

(** Modelled from the spec: the entries of a key's log that are still
    inside the window ending at [now]; section 3 keeps, per client
    key, the request timestamps within the active window. *)
Definition live (now : Z) (log : list Z) : list Z :=
  filter (λ t, now - t < window) log.

(** Modelled from the spec: one admission check on the log of a single
    key, after section 4.4: expired entries are dropped, the check is
    allowed while fewer than [quota] admitted requests remain in the
    window, and an admitted request is recorded.  The limiter of
    [slowapi] that the program installs is not in this repository. *)
Definition admit_log (now : Z) (log : list Z) : list Z * bool :=
  let l := live now log in
  if bool_decide (length l < quota)%nat then (now :: l, true) else (l, false).

(** Modelled from the spec: [admit(clientKey)] of section 4.4, on the
    map from client key to window state of section 9; a key with no
    entry has an empty log.  Time is passed in, in seconds. *)
Definition admit_key (key : string) (now : Z) (m : gmap string (list Z))
    : gmap string (list Z) * bool :=
  let '(log, allowed) := admit_log now (default [] (m !! key)) in
  (<[key := log]> m, allowed).

(** Modelled from the spec: a sequence of admission checks, each a
    client key and the time of the check, run in order; the result
    lists the decisions. *)
Fixpoint admit_all (checks : list (string * Z)) (m : gmap string (list Z))
    : gmap string (list Z) * list bool :=
  match checks with
  | [] => (m, [])
  | (key, now) :: rest =>
      let '(m1, allowed) := admit_key key now m in
      let '(m2, others) := admit_all rest m1 in
      (m2, allowed :: others)
  end.

(** The log the limiter holds for a key; a key never seen has none. *)
Definition log_of (m : gmap string (list Z)) (key : string) : list Z :=
  default [] (m !! key).

(** In a record of checks and their decisions, the number of checks of
    [key] that were allowed less than [window] seconds before [now]. *)
Definition admitted_in_window (key : string) (now : Z)
    (record : list ((string * Z) * bool)) : nat :=
  length (filter (λ r, r.1.1 = key ∧ r.2 = true ∧ now - r.1.2 < window) record).

End Limiter.

(** ** The endpoint *)

Record World := mkWorld {
  limiter : gmap string (list Z);
  app : State
}.

Section Endpoint.

Variable partial_ratio : string → string → float.
Variable lower : string → string.
Variable py_float : string → option float.
Variable py_int : string → option Z.
Variable reader : list (list string).

(** [GET /cities] as served: the limiter decorating [get_cities] is
    asked first, with the client key [get_remote_address] extracts; a
    rejection is answered by [rate_limit_exceeded_handler] and the
    handler does not run. *)
Definition endpoint (key : string) (now : Z) (p : Query.t) (w : World)
    : World * Response :=
  let '(lim, allowed) := Limiter.admit_key key now (limiter w) in
  if allowed : bool
  then
    let '(st, r) := get_cities partial_ratio lower py_float py_int reader p (app w) in
    (mkWorld lim st, respond r)
  else (mkWorld lim (app w), rate_limit_exceeded_handler).

(** The endpoint serving the requests [reqs] in order, each with the key
    of its client and the time it arrives, and its responses. *)
Fixpoint endpoint_all (reqs : list (string * Z * Query.t)) (w : World)
    : World * list Response :=
  match reqs with
  | [] => (w, [])
  | (key, now, p) :: rest =>
      let '(w1, r) := endpoint key now p w in
      let '(w2, rs) := endpoint_all rest w1 in
      (w2, r :: rs)
  end.

End Endpoint.

(** ** The page as the specification words it *)

(** The records of [data] at the positions of the interval
    [offset, offset + limit) that exist, i.e. the interval clamped to
    [0, len).  This follows the wording of the specification and is
    compared with [paginate] below. *)
Definition clamped_window {A} (data : list A) (offset limit : Z) : list A :=
  let lo := Z.max 0 offset in
  let hi := Z.min (Z.of_nat (length data)) (offset + limit) in
  take (Z.to_nat (hi - lo)) (drop (Z.to_nat lo) data).

(** ** Instances to run the model on *)

(** Stand-ins for the four library functions, so that the handler can
    be evaluated on concrete requests.  Nothing is proved about them,
    and no statement below depends on them except by taking them as an
    instance. *)
Module Sample.

Definition digit (c : ascii) : option Z :=
  let n := N_of_ascii c in
  if ((48 <=? n) && (n <=? 57))%N then Some (Z.of_N n - 48) else None.

Fixpoint digits (acc : Z) (s : string) : option Z :=
  match s with
  | EmptyString => Some acc
  | String c s' => d ← digit c; digits (10 * acc + d) s'
  end.

(** [int] on a non-empty run of decimal digits. *)
Definition int (s : string) : option Z :=
  if truthy s then digits 0 s else None.

Fixpoint split_dot (s : string) : string * option string :=
  match s with
  | EmptyString => (EmptyString, None)
  | String c s' =>
      if Ascii.eqb c "."%char then (EmptyString, Some s')
      else let '(a, b) := split_dot s' in (String c a, b)
  end.

Definition of_Z (n : Z) : PrimFloat.float := PrimFloat.of_uint63 (Uint63.of_Z n).

(** [float] on a plain decimal literal: an optional minus sign, digits,
    and an optional fraction.  The quotient of the digits by the power
    of ten is rounded once, which is the value [float] gives for
    literals of up to 15 digits. *)
Definition float (s : string) : option PrimFloat.float :=
  let '(neg, s) := match s with
                   | String "-"%char r => (true, r)
                   | _ => (false, s)
                   end in
  let '(ip, fp) := split_dot s in
  let fp := default EmptyString fp in
  if truthy (ip ++ fp)
  then n ← digits 0 (ip ++ fp);
       let v := (of_Z n / of_Z (10 ^ Z.of_nat (String.length fp)))%float in
       Some (if neg : bool then (- v)%float else v)
  else None.

(** Length of a longest common subsequence. *)
Fixpoint lcs (s1 : list ascii) : list ascii → nat :=
  match s1 with
  | [] => λ _, 0%nat
  | x :: s1' =>
      fix inner (s2 : list ascii) : nat :=
        match s2 with
        | [] => 0%nat
        | y :: s2' =>
            if Ascii.eqb x y then S (lcs s1' s2')
            else Nat.max (lcs s1' s2) (inner s2')
        end
  end.

(** Similarity of two strings in percent: twice the common subsequence
    over the total length. *)
Definition ratio (s1 s2 : list ascii) : PrimFloat.float :=
  (of_Z (200 * Z.of_nat (lcs s1 s2)) / of_Z (Z.of_nat (length s1 + length s2)))%float.

Definition fmax (a b : PrimFloat.float) : PrimFloat.float :=
  if (a <? b)%float then b else a.

(** The windows of [long] a string of length [m] is aligned with: every
    run of [m] characters, and the shorter runs at both ends. *)
Definition windows (m : nat) (long : list ascii) : list (list ascii) :=
  map (λ i : nat, take (i + 1 - (i + 1 - m)) (drop (i + 1 - m) long))
      (seq 0 (length long + m - 1)).

(** A partial ratio: the best [ratio] of the shorter string against a
    window of the longer one; 0 when a string is empty. *)
Definition partial_ratio (a b : string) : PrimFloat.float :=
  let a := list_ascii_of_string a in
  let b := list_ascii_of_string b in
  let '(short, long) := if bool_decide (length a ≤ length b)%nat then (a, b) else (b, a) in
  match short with
  | [] => 0%float
  | _ => foldr fmax 0%float (map (ratio short) (windows (length short) long))
  end.

(** The two cities of the specification's scenario, as rows of the
    GeoNames dump (19 columns). *)
Definition london : list string :=
  [ "2643743"; "London"; "London"; "Londres"; "51.50853"; "-0.12574"; "P"; "PPLC";
    "GB"; ""; "ENG"; "GLA"; ""; ""; "7556900"; ""; "25"; "Europe/London";
    "2012-08-19" ].

Definition new_york : list string :=
  [ "5128581"; "New York"; "New York City"; "NYC"; "40.71427"; "-74.00597"; "P";
    "PPL"; "US"; ""; "NY"; ""; ""; ""; "8175133"; "10"; "57"; "America/New_York";
    "2013-04-09" ].

Definition reader : list (list string) := [ london; new_york ].

(** [str.lower] on ASCII text. *)
Definition lower : string → string := ascii_lower.

Definition handler : Query.t → State → State * result (list City) :=
  get_cities partial_ratio lower float int reader.

(** The same two rows with a latitude that is not a number. *)
Definition london_bad : list string := <[4%nat := "north"]> london.
Definition new_york_bad : list string := <[4%nat := "north"]> new_york.

(** The table loaded from the two rows. *)
Definition cities : list City :=
  match load_cities float int reader with
  | inr records => records
  | inl _ => []
  end.

(** A client, by its remote address. *)
Definition client : string := "203.0.113.7".

(** A request for everything with at least one inhabitant. *)
Definition any_city : Query.t := Query.mk None None (Some 1) 50 0 None "asc".

End Sample.

(** ** Shapes of input rows *)

Section Rows.

Variable py_float : string → option float.
Variable py_int : string → option Z.

(** A row the loader can convert: it has the columns 0 to 14, columns 4
    and 5 are numbers for [float], and column 14 is empty or a number
    for [int]. *)
Definition well_formed (row : list string) : bool :=
  bool_decide (15 ≤ length row)%nat
  && match row !! 4%nat with Some s => bool_decide (is_Some (py_float s)) | None => false end
  && match row !! 5%nat with Some s => bool_decide (is_Some (py_float s)) | None => false end
  && match row !! 14%nat with
     | Some s => negb (truthy s) || bool_decide (is_Some (py_int s))
     | None => false
     end.

(** The positional reading of a row: which column each field of the
    record comes from. *)
Definition row_maps_to (row : list string) (c : City) : Prop :=
  row !! 1%nat = Some (name c)
  ∧ (∃ s, row !! 4%nat = Some s ∧ py_float s = Some (lat c))
  ∧ (∃ s, row !! 5%nat = Some s ∧ py_float s = Some (lng c))
  ∧ row !! 8%nat = Some (loc c)
  ∧ (∃ s, row !! 14%nat = Some s
          ∧ if truthy s then py_int s = Some (pop c) else pop c = 0)
  ∧ (2 ≤ length row)%nat ∧ row !! (length row - 2)%nat = Some (tz c).

(** [offending row c s]: the text [s] is a numeric column of [row] that
    the conversion [c] rejects. *)
Definition offending (row : list string) (c : conversion) (s : string) : Prop :=
  match c with
  | ToFloat => (row !! 4%nat = Some s ∨ row !! 5%nat = Some s) ∧ py_float s = None
  | ToInt => row !! 14%nat = Some s ∧ truthy s = true ∧ py_int s = None
  end.

(** A row with a malformed numeric field. *)
Definition malformed (row : list string) : Prop :=
  ∃ c s, offending row c s.

End Rows.

(** A request passes the validation on line 131 when [q] or [tz] is a
    non-empty string or [min_pop] is given. *)
Definition has_filter (p : Query.t) : bool :=
  truthy_opt (Query.q p) || truthy_opt (Query.tz p)
  || bool_decide (is_Some (Query.min_pop p)).

(** A request supplies a filter when the parameter is present in the
    query string, whatever its value. *)
Definition supplies_filter (p : Query.t) : Prop :=
  is_Some (Query.q p) ∨ is_Some (Query.tz p) ∨ is_Some (Query.min_pop p).

(** The first [m] pages of size [limit]: the pages at the offsets 0,
    [limit], [2 * limit], ... *)
Definition pages {A} (data : list A) (limit : Z) (m : nat) : list (list A) :=
  map (λ k : nat, paginate data (Z.of_nat k * limit) limit) (seq 0 m).

(** ** Orderings read off a comparison *)

(** [a] is not after [b]: [b < a] is false. *)
Definition not_after {A} (ltb : A → A → bool) (a b : A) : Prop := ltb b a = false.

(** [a] and [b] tie: neither is smaller than the other. *)
Definition ties {A} (ltb : A → A → bool) (a b : A) : Prop :=
  ltb a b = false ∧ ltb b a = false.

(** The outcome of [<] on the values two records hold under the key
    [k], where the comparison is defined. *)
Definition key_ltb (k : string) (a b : City) : bool :=
  match value_lt (get a k) (get b k) with
  | inr true => true
  | _ => false
  end.

(** A value that can be ordered against the others of its column: it is
    not [None], and not a NaN, which [<] places nowhere. *)
Definition comparable (v : value) : bool :=
  match v with
  | VStr _ | VInt _ => true
  | VFloat f => negb (PrimFloat.is_nan f)
  | VNone => false
  end.

(** The sort key [k] orders the records of [data]: it names a field
    whose values in [data] are all comparable. *)
Definition sortable (k : string) (data : list City) : bool :=
  forallb (λ c, comparable (get c k)) data.

(** [out] is [data] sorted by the key [k], stably, in the direction
    [order] asks for: a permutation of [data], in descending order of
    the key when [order] is ["desc"] and in ascending order otherwise,
    in which the records that tie with any given record appear in the
    order they have in [data]. *)
Definition stably_sorted (k order : string) (data out : list City) : Prop :=
  out ≡ₚ data
  ∧ StronglySorted
      (if String.eqb order "desc"
       then flip (not_after (key_ltb k)) else not_after (key_ltb k)) out
  ∧ ∀ c, c ∈ data →
      filter (λ a, ties (key_ltb k) a c) out = filter (λ a, ties (key_ltb k) a c) data.

(** No two distinct records of [data] tie under the key [k]. *)
Definition tie_free (k : string) (data : list City) : Prop :=
  ∀ x y, x ∈ data → y ∈ data → ties (key_ltb k) x y → x = y.

(** A place for a float that is not a NaN on a line ordered
    lexicographically: sign class, then exponent, then mantissa. *)
Definition rank (f : spec_float) : Z * Z * Z :=
  match f with
  | S754_infinity true => (-2, 0, 0)
  | S754_finite true m e => (-1, - e, - Z.pos m)
  | S754_zero _ | S754_nan => (0, 0, 0)
  | S754_finite false m e => (1, e, Z.pos m)
  | S754_infinity false => (2, 0, 0)
  end.

Definition lex_lt (x y : Z * Z * Z) : Prop :=
  let '(a1, b1, c1) := x in
  let '(a2, b2, c2) := y in
  a1 < a2 ∨ (a1 = a2 ∧ (b1 < b2 ∨ (b1 = b2 ∧ c1 < c2))).

(** The exceptions answered with their own status rather than 500. *)
Definition is_http (e : exn) : bool :=
  match e with HTTPException _ _ => true | _ => false end.

Definition raises_http {A} (r : result A) : bool :=
  match r with inl e => is_http e | inr _ => false end.

(** ** What a request asks of a record *)

(** The conjunction of the conditions of the three comprehensions on
    lines 139-147 that the request switches on: a non-empty [q] asks
    for a matching name, a non-empty [tz] for that very time zone, a
    [min_pop] for at least that population. *)
Definition passes (partial_ratio : string → string → float) (lower : string → string)
    (q tz' : option string) (min_pop : option Z) (c : City) : bool :=
  match q with
  | Some s => if truthy s then matches partial_ratio lower s (name c) else true
  | None => true
  end
  && match tz' with
     | Some s => if truthy s then bool_decide (tz c = s) else true
     | None => true
     end
  && match min_pop with
     | Some m => bool_decide (m ≤ pop c)
     | None => true
     end.

(** The steps [fs] applied one after the other, the last of the list
    first. *)
Definition apply_each {A} (fs : list (A → A)) (x : A) : A :=
  foldr (λ f d, f d) x fs.

(** What the handler answers to [p] when the table in use is [table]. *)
Definition answer (partial_ratio : string → string → float) (lower : string → string)
    (table : list City) (p : Query.t) : result (list City) :=
  if has_filter p then query partial_ratio lower p table
  else raise (HTTPException 400 no_filter_detail).

(** The handler serving the requests [ps] in order, with its answers. *)
Fixpoint serve_all (partial_ratio : string → string → float) (lower : string → string)
    (py_float : string → option float) (py_int : string → option Z)
    (reader : list (list string)) (ps : list Query.t) (st : State)
    : State * list (result (list City)) :=
  match ps with
  | [] => (st, [])
  | p :: rest =>
      let '(st1, r) := get_cities partial_ratio lower py_float py_int reader p st in
      let '(st2, rs) := serve_all partial_ratio lower py_float py_int reader rest st1 in
      (st2, r :: rs)
  end.

(** * Properties *)

(** ** Indexing *)

Lemma py_index_nat {A} (l : list A) (i : nat) :
  py_index l (Z.of_nat i) =
  match l !! i with Some x => ret x | None => raise IndexError end.
Proof.
  unfold py_index.
  destruct (Z.ltb_spec (Z.of_nat i) 0) as [?|_]; [lia|].
  destruct (Z.leb_spec 0 (Z.of_nat i)) as [_|?]; [|lia].
  rewrite Nat2Z.id. simpl.
  destruct (Z.ltb_spec (Z.of_nat i) (Z.of_nat (length l))) as [Hlt|Hge].
  - reflexivity.
  - rewrite (lookup_ge_None_2 l i) by lia. reflexivity.
Qed.

Lemma py_index_from_end {A} (l : list A) (k : nat) :
  (0 < k)%nat →
  py_index l (- Z.of_nat k) =
  if bool_decide (k ≤ length l)%nat
  then match l !! (length l - k)%nat with Some x => ret x | None => raise IndexError end
  else raise IndexError.
Proof.
  intros Hk. unfold py_index.
  destruct (Z.ltb_spec (- Z.of_nat k) 0) as [_|?]; [|lia].
  case_bool_decide as Hle.
  - destruct (Z.leb_spec 0 (- Z.of_nat k + Z.of_nat (length l))) as [_|?]; [|lia].
    destruct (Z.ltb_spec (- Z.of_nat k + Z.of_nat (length l)) (Z.of_nat (length l)))
      as [_|?]; [|lia].
    simpl. replace (Z.to_nat (- Z.of_nat k + Z.of_nat (length l)))
      with (length l - k)%nat by lia.
    reflexivity.
  - destruct (Z.leb_spec 0 (- Z.of_nat k + Z.of_nat (length l))) as [?|_]; [lia|].
    reflexivity.
Qed.

Lemma py_index_some {A} (l : list A) (i : nat) (x : A) :
  l !! i = Some x → py_index l (Z.of_nat i) = ret x.
Proof. intros H. rewrite py_index_nat, H. reflexivity. Qed.

(** ** The loader *)

Section LoaderFacts.

Variable py_float : string → option float.
Variable py_int : string → option Z.

Local Abbreviation load_row := (load_row py_float py_int).
Local Abbreviation load_cities := (load_cities py_float py_int).
Local Abbreviation well_formed := (well_formed py_float py_int).
Local Abbreviation row_maps_to := (row_maps_to py_float py_int).
Local Abbreviation offending := (offending py_float py_int).
Local Abbreviation malformed := (malformed py_float py_int).

Lemma load_row_well_formed (row : list string) :
  well_formed row = true → ∃ c, load_row row = ret c ∧ row_maps_to row c.
Proof.
  unfold well_formed. intros H.
  repeat (apply andb_prop in H; destruct H as [H ?]).
  apply bool_decide_eq_true in H.
  destruct (row !! 4%nat) as [s4|] eqn:E4; [|done].
  destruct (row !! 5%nat) as [s5|] eqn:E5; [|done].
  destruct (row !! 14%nat) as [s14|] eqn:E14; [|done].
  destruct (lookup_lt_is_Some_2 row 1%nat) as [n E1]; [lia|].
  destruct (lookup_lt_is_Some_2 row 8%nat) as [lc E8]; [lia|].
  destruct (lookup_lt_is_Some_2 row (length row - 2)%nat) as [t Et]; [lia|].
  repeat match goal with
         | H : bool_decide (is_Some _) = true |- _ =>
             apply bool_decide_eq_true in H; destruct H as [? ?]
         end.
  assert (Hpop : ∃ p, (if truthy s14 then int_of py_int s14 else ret 0) = ret p
                      ∧ if truthy s14 then py_int s14 = Some p else p = 0).
  { destruct (truthy s14) eqn:Et14.
    - match goal with H : _ || _ = true |- _ => simpl in H;
        apply bool_decide_eq_true in H; destruct H as [p Hp] end.
      exists p. unfold int_of. rewrite Hp. done.
    - exists 0. done. }
  destruct Hpop as (p & Hp1 & Hp2).
  eexists. split.
  - unfold load_row.
    change 1 with (Z.of_nat 1). change 4 with (Z.of_nat 4).
    change 5 with (Z.of_nat 5). change 8 with (Z.of_nat 8).
    change 14 with (Z.of_nat 14). change (-2) with (- Z.of_nat 2).
    rewrite (py_index_some _ _ _ E1), (py_index_some _ _ _ E4),
      (py_index_some _ _ _ E5), (py_index_some _ _ _ E8),
      (py_index_some _ _ _ E14).
    rewrite py_index_from_end by lia.
    rewrite bool_decide_eq_true_2 by lia. rewrite Et.
    unfold float_of. simpl.
    repeat match goal with H : py_float _ = Some _ |- _ => rewrite H; clear H end.
    simpl. rewrite Hp1. simpl. reflexivity.
  - unfold row_maps_to. simpl.
    repeat split; eauto; lia.
Qed.

End LoaderFacts.

Section LoaderClaims.

Variable py_float : string → option float.
Variable py_int : string → option Z.

Local Abbreviation load_row := (load_row py_float py_int).
Local Abbreviation load_cities := (load_cities py_float py_int).
Local Abbreviation well_formed := (well_formed py_float py_int).
Local Abbreviation row_maps_to := (row_maps_to py_float py_int).
Local Abbreviation offending := (offending py_float py_int).
Local Abbreviation malformed := (malformed py_float py_int).

(** C6. Every row of a file whose rows are all well formed becomes one
    record, in file order, whose [name] is column 1, [lat] column 4,
    [lng] column 5, [loc] column 8, [pop] column 14 (0 when that column
    is empty) and [tz] the column before the last. *)
Theorem load_cities_positional (reader : list (list string)) :
  Forall (λ row, well_formed row = true) reader →
  ∃ records, load_cities reader = ret records
             ∧ Forall2 row_maps_to reader records.
Proof.
  induction 1 as [|row rest Hrow _ IH].
  - exists []. split; [reflexivity | constructor].
  - destruct (load_row_well_formed py_float py_int row Hrow) as (c & Hc & Hmap).
    destruct IH as (cs & Hcs & Hall).
    exists (c :: cs). split.
    + simpl. rewrite Hc. simpl. rewrite Hcs. reflexivity.
    + constructor; assumption.
Qed.

Lemma load_row_malformed (row : list string) :
  malformed row → ∃ c s, offending row c s ∧ load_row row = raise (ValueError c s).
Proof.
  intros (c0 & s0 & Hoff).
  assert (Hlen : (5 ≤ length row)%nat).
  { destruct c0; simpl in Hoff.
    - destruct Hoff as [[H|H] _]; apply lookup_lt_Some in H; lia.
    - destruct Hoff as [H _]; apply lookup_lt_Some in H; lia. }
  destruct (lookup_lt_is_Some_2 row 1%nat) as [n E1]; [lia|].
  destruct (lookup_lt_is_Some_2 row 4%nat) as [s4 E4]; [lia|].
  unfold load_row.
  change 1 with (Z.of_nat 1). change 4 with (Z.of_nat 4).
  change 5 with (Z.of_nat 5). change 8 with (Z.of_nat 8).
  change 14 with (Z.of_nat 14). change (-2) with (- Z.of_nat 2).
  rewrite (py_index_some _ _ _ E1), (py_index_some _ _ _ E4). simpl.
  unfold float_of at 1.
  destruct (py_float s4) as [la|] eqn:F4; simpl;
    [|exists ToFloat, s4; split; [simpl; auto | reflexivity]].
  assert (H5 : ∃ s5, row !! 5%nat = Some s5) .
  { destruct c0; simpl in Hoff.
    - destruct Hoff as [[H|H] Hn]; [congruence | eauto].
    - destruct Hoff as [H _]. apply lookup_lt_Some in H.
      apply lookup_lt_is_Some_2. lia. }
  destruct H5 as [s5 E5].
  rewrite (py_index_some _ _ _ E5). simpl.
  unfold float_of at 1.
  destruct (py_float s5) as [lo|] eqn:F5; simpl;
    [|exists ToFloat, s5; split; [simpl; auto | reflexivity]].
  destruct c0; simpl in Hoff.
  { destruct Hoff as [[H|H] Hn]; congruence. }
  destruct Hoff as (E14 & Ht & Hn).
  pose proof (lookup_lt_Some _ _ _ E14) as Hlen14.
  rewrite py_index_from_end by lia.
  rewrite bool_decide_eq_true_2 by lia.
  destruct (lookup_lt_is_Some_2 row (length row - 2)%nat) as [t Et]; [lia|].
  rewrite Et. simpl.
  rewrite (py_index_some _ _ _ E14). simpl.
  rewrite Ht. unfold int_of. rewrite Hn. simpl.
  exists ToInt, s0. split; [simpl; auto | reflexivity].
Qed.

Lemma load_cities_first_failure (pre : list (list string)) row post e :
  Forall (λ r, is_ok (load_row r) = true) pre →
  load_row row = raise e →
  load_cities (pre ++ row :: post) = raise e.
Proof.
  intros Hpre Hrow. induction Hpre as [|r pre Hr _ IH]; simpl.
  - rewrite Hrow. reflexivity.
  - destruct (load_row r); [discriminate|]. simpl. rewrite IH. reflexivity.
Qed.

Lemma load_cities_some_failure (reader : list (list string)) row :
  row ∈ reader → is_ok (load_row row) = false → is_ok (load_cities reader) = false.
Proof.
  intros Hin Hrow. induction reader as [|r rest IH]; [by apply elem_of_nil in Hin|].
  simpl. apply elem_of_cons in Hin as [->|Hin].
  - destruct (load_row r); [reflexivity | discriminate].
  - destruct (load_row r); [reflexivity|]. simpl.
    specialize (IH Hin). destruct (load_cities rest); [reflexivity | discriminate].
Qed.

End LoaderClaims.

(** ** Which exceptions can arise where *)

Lemma py_index_not_http {A} (l : list A) i : raises_http (py_index l i) = false.
Proof.
  unfold py_index.
  destruct (_ && _); [destruct (l !! _)|]; reflexivity.
Qed.

Lemma bind_not_http {A B} (m : result A) (k : A → result B) :
  raises_http m = false → (∀ x, raises_http (k x) = false) →
  raises_http (bind m k) = false.
Proof. destruct m; simpl; auto. Qed.

Lemma load_row_not_http py_float py_int row :
  raises_http (load_row py_float py_int row) = false.
Proof.
  unfold load_row, float_of, int_of.
  repeat (apply bind_not_http; [|intros ?]);
    try solve [apply py_index_not_http | reflexivity].
  - destruct (py_float _); reflexivity.
  - destruct (py_float _); reflexivity.
  - destruct (truthy _); [destruct (py_int _)|]; reflexivity.
Qed.

Lemma load_cities_not_http py_float py_int reader :
  raises_http (load_cities py_float py_int reader) = false.
Proof.
  induction reader as [|row rest IH]; [reflexivity|]. simpl.
  apply bind_not_http; [apply load_row_not_http|]. intros c.
  apply bind_not_http; [exact IH|]. reflexivity.
Qed.

Section SortedErrors.

Context {A : Type}.
Variable lt : A → A → result bool.
Hypothesis lt_not_http : ∀ a b, raises_http (lt a b) = false.

Lemma insert_not_http x l : raises_http (insert lt x l) = false.
Proof.
  induction l as [|y ys IH]; [reflexivity|]. simpl.
  apply bind_not_http; [apply lt_not_http|]. intros [|]; [|reflexivity].
  apply bind_not_http; [exact IH|]. reflexivity.
Qed.

Lemma sort_asc_not_http l : raises_http (sort_asc lt l) = false.
Proof.
  induction l as [|x xs IH]; [reflexivity|]. simpl.
  apply bind_not_http; [exact IH|]. intros s. apply insert_not_http.
Qed.

Lemma sorted_not_http r l : raises_http (sorted lt r l) = false.
Proof.
  unfold sorted. destruct r; [|apply sort_asc_not_http].
  apply bind_not_http; [apply sort_asc_not_http|]. reflexivity.
Qed.

End SortedErrors.

Lemma value_lt_not_http a b : raises_http (value_lt a b) = false.
Proof. destruct a, b; reflexivity. Qed.

(** ** Validation and the memoised loader *)

Section HandlerClaims.

Variable partial_ratio : string → string → float.
Variable lower : string → string.
Variable py_float : string → option float.
Variable py_int : string → option Z.
Variable reader : list (list string).

Local Abbreviation load_row' := (load_row py_float py_int).
Local Abbreviation load_cities' := (load_cities py_float py_int).
Local Abbreviation cached' := (load_cities_cached py_float py_int reader).
Local Abbreviation query' := (query partial_ratio lower).
Local Abbreviation get_cities' := (get_cities partial_ratio lower py_float py_int reader).

Lemma get_cities_rejects (p : Query.t) (st : State) :
  has_filter p = false →
  get_cities' p st = (st, raise (HTTPException 400 no_filter_detail)).
Proof.
  unfold has_filter, get_cities. intros H.
  apply orb_false_elim in H as [H H3]. apply orb_false_elim in H as [H1 H2].
  rewrite H1, H2, H3. reflexivity.
Qed.

Lemma get_cities_proceeds (p : Query.t) (st : State) :
  has_filter p = true →
  get_cities' p st =
  ((cached' st).1, bind (cached' st).2 (query' p)).
Proof.
  unfold has_filter, get_cities. intros H.
  rewrite <- !negb_orb, H. simpl.
  destruct (cached' st). reflexivity.
Qed.

Lemma apply_sort_not_http sort order data :
  raises_http (apply_sort sort order data) = false.
Proof.
  unfold apply_sort. destruct sort as [k|]; [|reflexivity].
  destruct (truthy k); [|reflexivity].
  apply sorted_not_http. intros a b. apply value_lt_not_http.
Qed.

Lemma query_not_http (p : Query.t) data : raises_http (query' p data) = false.
Proof.
  unfold query. apply bind_not_http; [apply apply_sort_not_http|].
  reflexivity.
Qed.

Lemma load_cities_cached_not_http (st : State) :
  raises_http (cached' st).2 = false.
Proof.
  unfold load_cities_cached. destruct (cache st); [reflexivity|].
  apply load_cities_not_http.
Qed.

(** C4, as amended. A request in which neither [q] nor [tz] is a
    non-empty string and [min_pop] is absent is rejected with status 400
    and the state untouched: the loader has not run.  Any other request
    goes on to the memoised loader and the query pipeline and returns
    what they produce, which is never the status-400 rejection. *)
Theorem get_cities_validation (p : Query.t) (st : State) :
  (has_filter p = false →
     get_cities' p st = (st, raise (HTTPException 400 no_filter_detail))
     ∧ status (respond (get_cities' p st).2) = 400)
  ∧ (has_filter p = true →
     get_cities' p st =
       ((cached' st).1, bind (cached' st).2 (query' p))
     ∧ raises_http (get_cities' p st).2 = false).
Proof.
  split; intros H.
  - rewrite (get_cities_rejects p st H). split; reflexivity.
  - rewrite (get_cities_proceeds p st H). split; [reflexivity|]. simpl.
    apply bind_not_http; [apply load_cities_cached_not_http|].
    intros data. apply query_not_http.
Qed.

(** C7, as amended. When the file contains a row with a malformed
    numeric field the load raises, and the exception is not one the
    program defines.  If the rows before it convert, the exception is
    the [ValueError] of the conversion, carrying the text of the
    offending field.  Nothing is stored, so every request that passes
    validation while the cache is empty reads the file again and ends
    with the same exception. *)
Theorem load_cities_malformed (row : list string) :
  row ∈ reader → malformed py_float py_int row →
  ∃ e, load_cities' reader = raise e
       ∧ is_http e = false
       ∧ (∀ pre post, reader = (pre ++ row :: post)%list →
            Forall (λ r, is_ok (load_row' r) = true) pre →
            ∃ c s, offending py_float py_int row c s ∧ e = ValueError c s)
       ∧ (∀ p st, has_filter p = true → cache st = None →
            get_cities' p st = (mkState None (S (file_reads st)), raise e)).
Proof.
  intros Hin Hbad.
  destruct (load_row_malformed py_float py_int row Hbad) as (c & s & Hoff & Hrow).
  assert (Hfail : is_ok (load_cities' reader) = false).
  { apply (load_cities_some_failure py_float py_int reader row Hin).
    rewrite Hrow. reflexivity. }
  destruct (load_cities' reader) as [e|records] eqn:Hload; [|discriminate].
  exists e. split; [reflexivity|]. split; [|split].
  - pose proof (load_cities_not_http py_float py_int reader) as H.
    rewrite Hload in H. exact H.
  - intros pre post -> Hpre.
    rewrite (load_cities_first_failure py_float py_int pre row post _ Hpre Hrow) in Hload.
    exists c, s. split; [exact Hoff|]. unfold raise in Hload. congruence.
  - intros p st Hp Hcache.
    rewrite (get_cities_proceeds p st Hp).
    unfold load_cities_cached. rewrite Hcache, Hload. reflexivity.
Qed.

(** C10. An empty [q] is handled exactly as an absent one; the request
    that supplies nothing but [q=""] is rejected with status 400; and
    with an empty [q] the outcome does not depend on the scoring
    function, which is never consulted. *)
Theorem empty_q_is_absent (p : Query.t) (st : State) :
  get_cities' (Query.with_q (Some "") p) st = get_cities' (Query.with_q None p) st
  ∧ (∀ limit offset sort order,
       get_cities' (Query.mk (Some "") None None limit offset sort order) st
       = (st, raise (HTTPException 400 no_filter_detail)))
  ∧ (∀ other_ratio,
       get_cities other_ratio lower py_float py_int reader (Query.with_q (Some "") p) st
       = get_cities' (Query.with_q (Some "") p) st).
Proof.
  split; [|split]; reflexivity.
Qed.

End HandlerClaims.

(** ** Letter case of ASCII text *)

Lemma ascii_lower_char_flip (c : ascii) :
  ascii_lower_char (ascii_flip_char c) = ascii_lower_char c.
Proof. destruct c as [[] [] [] [] [] [] [] []]; reflexivity. Qed.

Lemma ascii_char_flip (c : ascii) : ascii_char (ascii_flip_char c) = ascii_char c.
Proof. destruct c as [[] [] [] [] [] [] [] []]; reflexivity. Qed.

Lemma ascii_lower_recase (mask : list bool) (s : string) :
  ascii_lower (ascii_recase mask s) = ascii_lower s.
Proof.
  revert s. induction mask as [|b mask IH]; intros [|c s]; simpl; try reflexivity.
  rewrite IH. destruct b; [rewrite ascii_lower_char_flip|]; reflexivity.
Qed.

Lemma ascii_only_recase (mask : list bool) (s : string) :
  ascii_only (ascii_recase mask s) = ascii_only s.
Proof.
  revert s. induction mask as [|b mask IH]; intros [|c s]; simpl; try reflexivity.
  rewrite IH. destruct b; [rewrite ascii_char_flip|]; reflexivity.
Qed.

(** ** The three filters *)

Lemma sublist_filter_mono {A} (P : A → Prop) `{!∀ x, Decision (P x)} (l1 l2 : list A) :
  l1 `sublist_of` l2 → filter P l1 `sublist_of` filter P l2.
Proof.
  induction 1 as [|x l1 l2 _ IH|x l1 l2 _ IH].
  - constructor.
  - rewrite !filter_cons. destruct (decide (P x)); [constructor|]; exact IH.
  - rewrite filter_cons. destruct (decide (P x)); [constructor|]; exact IH.
Qed.

Section FilterClaims.

Variable partial_ratio : string → string → float.
Variable lower : string → string.

Local Abbreviation matches' := (matches partial_ratio lower).
Local Abbreviation filter_q' := (filter_q partial_ratio lower).
Local Abbreviation apply_filters' := (apply_filters partial_ratio lower).

Lemma matches_lower (q nm q' nm' : string) :
  lower q = lower q' → lower nm = lower nm' → matches' q nm = matches' q' nm'.
Proof. unfold matches. intros -> ->. reflexivity. Qed.

(** C1, as amended. The name filter keeps a record exactly when [q] is
    empty, in which case nothing is scored, or the lower-cased name
    scores at least 70 against the lower-cased query.  The decision
    depends on the query and the name through their lower-cased forms
    only: texts that [str.lower] maps to the same texts get the same
    decision.  In particular, as [str.lower] on an ASCII text puts the
    letters [A]-[Z] in lower case and leaves the rest, the decision is
    the same for every casing of an ASCII query and an ASCII name. *)
Theorem name_filter_threshold (q : string) (data : list City) :
  (∀ c, c ∈ filter_q' (Some q) data
        ↔ c ∈ data
          ∧ (truthy q = true →
             (70 <=? partial_ratio (lower q) (lower (name c)))%float = true))
  ∧ (∀ nm q2 nm2,
       lower q2 = lower q → lower nm2 = lower nm → matches' q2 nm2 = matches' q nm)
  ∧ ((∀ s, ascii_only s = true → lower s = ascii_lower s) →
     ∀ nm mask_q mask_nm,
       ascii_only q = true → ascii_only nm = true →
       matches' (ascii_recase mask_q q) (ascii_recase mask_nm nm) = matches' q nm).
Proof.
  split; [|split].
  - intros c. unfold filter_q. destruct (truthy q).
    + rewrite list_elem_of_filter. unfold matches. rewrite Is_true_true. tauto.
    + split; [intros H; split; [exact H | discriminate] | tauto].
  - intros nm q2 nm2 Hq Hnm. by apply matches_lower.
  - intros Hascii nm mq mn Hq Hnm. apply matches_lower.
    + rewrite !Hascii by (by rewrite ?ascii_only_recase). apply ascii_lower_recase.
    + rewrite !Hascii by (by rewrite ?ascii_only_recase). apply ascii_lower_recase.
Qed.

Lemma filter_q_sublist q data : filter_q' q data `sublist_of` data.
Proof.
  unfold filter_q. destruct q as [s|]; [|reflexivity].
  destruct (truthy s); [apply sublist_filter | reflexivity].
Qed.

Lemma filter_tz_sublist t data : filter_tz t data `sublist_of` data.
Proof.
  unfold filter_tz. destruct t as [s|]; [|reflexivity].
  destruct (truthy s); [apply sublist_filter | reflexivity].
Qed.

Lemma filter_min_pop_sublist m data : filter_min_pop m data `sublist_of` data.
Proof.
  unfold filter_min_pop. destruct m as [n|]; [apply sublist_filter | reflexivity].
Qed.

Lemma filter_tz_mono t l1 l2 :
  l1 `sublist_of` l2 → filter_tz t l1 `sublist_of` filter_tz t l2.
Proof.
  intros H. unfold filter_tz. destruct t as [s|]; [|exact H].
  destruct (truthy s); [by apply sublist_filter_mono | exact H].
Qed.

Lemma filter_min_pop_mono m l1 l2 :
  l1 `sublist_of` l2 → filter_min_pop m l1 `sublist_of` filter_min_pop m l2.
Proof.
  intros H. unfold filter_min_pop. destruct m as [n|]; [|exact H].
  by apply sublist_filter_mono.
Qed.

(** C8. The records that pass all the filters of a request are among
    those that pass any one of its filters applied alone to the same
    table; they even form a sublist of them, so order and multiplicity
    are kept. *)
Theorem filters_monotone (q tz : option string) (min_pop : option Z) (data : list City) :
  Forall (λ alone, apply_filters' q tz min_pop data `sublist_of` alone
                   ∧ apply_filters' q tz min_pop data ⊆ alone)
    [ apply_filters' q None None data;
      apply_filters' None tz None data;
      apply_filters' None None min_pop data ].
Proof.
  assert (Hsub : ∀ alone : list City,
            apply_filters' q tz min_pop data `sublist_of` alone →
            apply_filters' q tz min_pop data `sublist_of` alone
            ∧ apply_filters' q tz min_pop data ⊆ alone).
  { intros alone H. split; [exact H | by apply sublist_subseteq]. }
  unfold apply_filters.
  apply Forall_cons; split; [|apply Forall_cons; split; [|apply Forall_cons; split;
    [|apply Forall_nil; exact I]]]; apply Hsub; simpl.
  - etrans; [apply filter_min_pop_sublist | apply filter_tz_sublist].
  - etrans; [apply filter_min_pop_sublist|].
    apply filter_tz_mono, filter_q_sublist.
  - apply filter_min_pop_mono. etrans; [apply filter_tz_sublist|].
    apply filter_q_sublist.
Qed.

End FilterClaims.

(** ** Slices and pages *)

Section Slices.

Context {A : Type}.
Implicit Types (l data : list A) (i n start stop offset limit : Z).

Lemma adjust_index_range i n : 0 ≤ n → 0 ≤ adjust_index i n ≤ n.
Proof.
  intros Hn. unfold adjust_index.
  destruct (Z.ltb_spec i 0); [destruct (Z.ltb_spec (i + n) 0)|destruct (Z.leb_spec n i)]; lia.
Qed.

Lemma adjust_index_nonneg i n : 0 ≤ i → adjust_index i n = Z.min i n.
Proof.
  intros Hi. unfold adjust_index.
  destruct (Z.ltb_spec i 0); [lia|]. destruct (Z.leb_spec n i); lia.
Qed.

Lemma adjust_index_neg i n : i < 0 → adjust_index i n = Z.max 0 (i + n).
Proof.
  intros Hi. unfold adjust_index.
  destruct (Z.ltb_spec i 0); [|lia]. destruct (Z.ltb_spec (i + n) 0); lia.
Qed.

(** Element by element: position [k] of [l[start:stop]] is position
    [s + k] of [l] as long as that is before [e], where [s] and [e] are
    the adjusted bounds. *)
Lemma slice_lookup l start stop (k : nat) :
  let n := Z.of_nat (length l) in
  let s := adjust_index start n in
  let e := adjust_index stop n in
  slice l start stop !! k =
  if bool_decide (s + Z.of_nat k < e) then l !! Z.to_nat (s + Z.of_nat k) else None.
Proof.
  intros n s e. unfold slice. fold n. fold s. fold e.
  pose proof (adjust_index_range start n ltac:(lia)) as Hs. fold s in Hs.
  case_bool_decide as Hk.
  - rewrite lookup_take_lt by lia. rewrite lookup_drop. f_equal. lia.
  - apply lookup_take_ge. lia.
Qed.

Lemma slice_length_le l start stop :
  start ≤ stop → Z.of_nat (length (slice l start stop)) ≤ stop - start.
Proof.
  intros Hle. unfold slice. rewrite length_take.
  set (n := Z.of_nat (length l)).
  assert (0 ≤ n) by lia.
  assert (adjust_index stop n - adjust_index start n ≤ stop - start).
  { unfold adjust_index.
    repeat match goal with
           | |- context [Z.ltb ?a ?b] => destruct (Z.ltb_spec a b)
           | |- context [Z.leb ?a ?b] => destruct (Z.leb_spec a b)
           end; lia. }
  lia.
Qed.

Lemma slice_nonneg l start stop :
  0 ≤ start → 0 ≤ stop →
  slice l start stop = take (Z.to_nat stop - Z.to_nat start) (drop (Z.to_nat start) l).
Proof.
  intros Hs He. unfold slice. rewrite !adjust_index_nonneg by lia.
  destruct (Z.le_gt_cases (Z.of_nat (length l)) start) as [Hge|Hlt].
  - rewrite !drop_ge by lia. by rewrite !take_nil.
  - rewrite (Z.min_l start) by lia.
    destruct (Z.le_gt_cases (Z.of_nat (length l)) stop) as [Hge'|Hlt'].
    + rewrite (Z.min_r stop) by lia.
      rewrite !take_ge; [done | rewrite length_drop; lia | rewrite length_drop; lia].
    + rewrite (Z.min_l stop) by lia. f_equal. lia.
Qed.

Lemma paginate_nonneg data offset limit :
  0 ≤ offset → 0 ≤ limit →
  paginate data offset limit = take (Z.to_nat limit) (drop (Z.to_nat offset) data).
Proof.
  intros Ho Hl. unfold paginate. rewrite slice_nonneg by lia. f_equal. lia.
Qed.

Lemma paginate_clamped data offset limit :
  0 ≤ offset → 0 ≤ offset + limit →
  paginate data offset limit = clamped_window data offset limit.
Proof.
  intros Ho Hl. unfold paginate, clamped_window, slice.
  rewrite !adjust_index_nonneg by lia.
  destruct (Z.le_gt_cases (Z.of_nat (length data)) offset) as [Hge|Hlt].
  - rewrite !drop_ge by lia. by rewrite !take_nil.
  - rewrite (Z.min_l offset), (Z.max_r 0 offset) by lia. f_equal. lia.
Qed.

(** C3, as amended. The page is computed for all integers [offset] and
    [limit], with no exception: it is the run of [data] between two
    bounds that both lie in [0, len].  When [offset] and
    [offset + limit] are not negative the page is the window
    [offset, offset + limit) cut down to the positions that exist.  A
    negative [offset], or a negative [offset + limit], is first counted
    back from the end of the sequence. *)
Theorem paginate_slice data offset limit :
  let n := Z.of_nat (length data) in
  let s := adjust_index offset n in
  let e := adjust_index (offset + limit) n in
  (0 ≤ s ≤ n ∧ 0 ≤ e ≤ n)
  ∧ (∀ k : nat, paginate data offset limit !! k =
       if bool_decide (s + Z.of_nat k < e) then data !! Z.to_nat (s + Z.of_nat k) else None)
  ∧ (0 ≤ offset → 0 ≤ offset + limit →
       paginate data offset limit = clamped_window data offset limit)
  ∧ (offset < 0 → s = Z.max 0 (offset + n))
  ∧ (offset + limit < 0 → e = Z.max 0 (offset + limit + n)).
Proof.
  intros n s e. repeat split.
  1-4: apply adjust_index_range; lia.
  - intros k. apply slice_lookup.
  - apply paginate_clamped.
  - apply adjust_index_neg.
  - apply adjust_index_neg.
Qed.

Lemma pages_concat data limit (m : nat) :
  0 < limit → concat (pages data limit m) = take (m * Z.to_nat limit) data.
Proof.
  intros Hl. unfold pages. induction m as [|m IH]; [done|].
  rewrite seq_S, map_app, concat_app, IH. simpl. rewrite app_nil_r.
  rewrite paginate_nonneg by lia.
  replace (Z.to_nat (Z.of_nat m * limit)) with (m * Z.to_nat limit)%nat by lia.
  rewrite take_take_drop. f_equal. lia.
Qed.

(** C5. For a positive [limit], every page has at most [limit] records
    whatever the offset, and the pages at offsets 0, [limit],
    [2 * limit], ... put end to end are the sequence itself: the first
    [m] of them are its first [m * limit] records, hence all of it as
    soon as [m * limit] reaches its length, and the pages after that
    are empty.  So each record appears once, at its own position. *)
Theorem pagination_reconstructs data limit :
  0 < limit →
  (∀ offset, Z.of_nat (length (paginate data offset limit)) ≤ limit)
  ∧ (∀ m : nat, concat (pages data limit m) = take (m * Z.to_nat limit) data)
  ∧ (∀ m : nat, Z.of_nat (length data) ≤ Z.of_nat m * limit →
       concat (pages data limit m) = data
       ∧ paginate data (Z.of_nat m * limit) limit = []).
Proof.
  intros Hl. split; [|split].
  - intros offset. unfold paginate.
    pose proof (slice_length_le data offset (offset + limit) ltac:(lia)). lia.
  - intros m. by apply pages_concat.
  - intros m Hm. split.
    + rewrite pages_concat by done. apply take_ge. lia.
    + rewrite paginate_nonneg by lia. rewrite drop_ge by lia. apply take_nil.
Qed.

End Slices.

(** ** Sorting with a comparison that is a strict weak order *)

Section StableSort.

Context {A : Type}.
Variable lt : A → A → result bool.
Variable ltb : A → A → bool.
Variable P : A → Prop.

Hypothesis lt_defined : ∀ a b, P a → P b → lt a b = ret (ltb a b).
Hypothesis ltb_asym : ∀ a b, P a → P b → ltb a b = true → ltb b a = false.
Hypothesis ltb_negtrans :
  ∀ a b c, P a → P b → P c → ltb a b = false → ltb b c = false → ltb a c = false.

Lemma insert_ok (x : A) (l : list A) :
  P x → Forall P l → ∃ out, insert lt x l = ret out ∧ out ≡ₚ x :: l.
Proof.
  intros Hx Hl. induction Hl as [|y ys Hy Hys IH]; simpl.
  - eexists. split; reflexivity.
  - rewrite (lt_defined y x Hy Hx). simpl. destruct (ltb y x).
    + destruct IH as (r & -> & Hr). simpl. eexists. split; [reflexivity|].
      rewrite Hr. apply Permutation_swap.
    + eexists. split; reflexivity.
Qed.

Lemma sort_asc_ok (l : list A) :
  Forall P l → ∃ out, sort_asc lt l = ret out ∧ out ≡ₚ l.
Proof.
  induction 1 as [|x xs Hx Hxs IH]; simpl.
  - eexists. split; reflexivity.
  - destruct IH as (s & -> & Hs). simpl.
    destruct (insert_ok x s Hx) as (out & Hout & Hperm).
    { rewrite Hs. exact Hxs. }
    exists out. split; [exact Hout|]. rewrite Hperm, Hs. reflexivity.
Qed.

Lemma insert_sorted (x : A) (l out : list A) :
  P x → Forall P l → StronglySorted (not_after ltb) l →
  insert lt x l = ret out → StronglySorted (not_after ltb) out.
Proof.
  intros Hx Hl Hs. revert out.
  induction Hs as [|y ys Hys IH Hall]; simpl; intros out Hout.
  - inversion Hout. repeat constructor.
  - apply Forall_cons in Hl as [Hy Hl].
    rewrite (lt_defined y x Hy Hx) in Hout. simpl in Hout.
    destruct (ltb y x) eqn:Hyx.
    + destruct (insert_ok x ys Hx Hl) as (r & Hr & Hperm).
      rewrite Hr in Hout. simpl in Hout. inversion Hout; subst out.
      constructor; [by apply IH|].
      rewrite Hperm. constructor; [|exact Hall].
      unfold not_after. by apply ltb_asym.
    + inversion Hout; subst out.
      constructor; [by constructor|].
      constructor; [exact Hyx|].
      rewrite Forall_forall in Hall, Hl |- *. intros z Hz.
      unfold not_after in *. apply (ltb_negtrans z y x); auto.
Qed.

Lemma sort_asc_sorted (l out : list A) :
  Forall P l → sort_asc lt l = ret out → StronglySorted (not_after ltb) out.
Proof.
  intros Hl. revert out. induction Hl as [|x xs Hx Hxs IH]; simpl; intros out Hout.
  - inversion Hout. constructor.
  - destruct (sort_asc_ok xs Hxs) as (s & Hs & Hperm).
    rewrite Hs in Hout. simpl in Hout.
    apply (insert_sorted x s out); auto. by rewrite Hperm.
Qed.

(** Stability, in the form used below: a selection [Q] of elements none
    of which is smaller than another comes out in input order. *)
Lemma insert_stable (Q : A → Prop) `{!∀ a, Decision (Q a)} (x : A) (l out : list A) :
  P x → Forall P l →
  (∀ y, y ∈ l → Q x → Q y → ltb y x = false) →
  insert lt x l = ret out → filter Q out = filter Q (x :: l).
Proof.
  intros Hx Hl. revert out.
  induction Hl as [|y ys Hy Hys IH]; simpl; intros out HQ Hout.
  - by inversion Hout.
  - rewrite (lt_defined y x Hy Hx) in Hout. simpl in Hout.
    destruct (ltb y x) eqn:Hyx; [|by inversion Hout].
    destruct (insert_ok x ys Hx Hys) as (r & Hr & _).
    rewrite Hr in Hout. simpl in Hout. inversion Hout; subst out.
    assert (Hrec : filter Q r = filter Q (x :: ys)).
    { apply IH; [|exact Hr]. intros z Hz. apply HQ. by right. }
    rewrite (filter_cons Q y r), Hrec, !(filter_cons Q x), (filter_cons Q y ys).
    destruct (decide (Q y)) as [Qy|]; [|done].
    destruct (decide (Q x)) as [Qx|]; [|done].
    rewrite (HQ y) in Hyx; [discriminate | by left | done | done].
Qed.

Lemma sort_asc_stable (Q : A → Prop) `{!∀ a, Decision (Q a)} (l out : list A) :
  Forall P l →
  (∀ x y, x ∈ l → y ∈ l → Q x → Q y → ltb y x = false) →
  sort_asc lt l = ret out → filter Q out = filter Q l.
Proof.
  intros Hl. revert out. induction Hl as [|x xs Hx Hxs IH]; simpl; intros out HQ Hout.
  - by inversion Hout.
  - destruct (sort_asc_ok xs Hxs) as (s & Hs & Hperm).
    rewrite Hs in Hout. simpl in Hout.
    rewrite (insert_stable Q x s out); auto.
    + rewrite !(filter_cons Q x). rewrite (IH s); auto.
      intros a b Ha Hb. apply HQ; by right.
    + by rewrite Hperm.
    + intros y Hy. rewrite Hperm in Hy. apply HQ; [by left | by right].
Qed.

Lemma StronglySorted_reverse (R : relation A) (l : list A) :
  StronglySorted R l → StronglySorted (flip R) (reverse l).
Proof.
  induction 1 as [|x xs Hxs IH Hall]; [constructor|].
  rewrite reverse_cons. apply StronglySorted_app_2; [|exact IH | repeat constructor].
  intros a b Ha Hb. apply list_elem_of_singleton in Hb as ->.
  rewrite elem_of_reverse in Ha. rewrite Forall_forall in Hall.
  unfold flip. by apply Hall.
Qed.

(** What [sorted] returns, for either direction. *)
Lemma sorted_spec (reversed : bool) (l : list A) :
  Forall P l →
  ∃ out, sorted lt reversed l = ret out
         ∧ out ≡ₚ l
         ∧ StronglySorted (if reversed then flip (not_after ltb) else not_after ltb) out
         ∧ ∀ b, P b → filter (λ a, ties ltb a b) out = filter (λ a, ties ltb a b) l.
Proof.
  intros Hl.
  assert (Hties : ∀ b l', Forall P l' → P b →
            ∀ x y, x ∈ l' → y ∈ l' → ties ltb x b → ties ltb y b → ltb y x = false).
  { intros b l' Hl' Hb x y Hx Hy [_ Hbx] [Hyb _].
    rewrite Forall_forall in Hl'. apply (ltb_negtrans y b x); auto. }
  unfold sorted. destruct reversed.
  - assert (Hrev : Forall P (reverse l)).
    { rewrite Forall_forall in Hl |- *. intros a Ha. apply Hl. by apply elem_of_reverse. }
    destruct (sort_asc_ok (reverse l) Hrev) as (s & Hs & Hperm).
    rewrite Hs. simpl. exists (reverse s). split; [reflexivity|]. split; [|split].
    + by rewrite reverse_Permutation, Hperm, reverse_Permutation.
    + apply StronglySorted_reverse. by apply (sort_asc_sorted (reverse l)).
    + intros b Hb. rewrite filter_reverse.
      rewrite (sort_asc_stable _ (reverse l) s Hrev); [| |exact Hs].
      * by rewrite filter_reverse, reverse_involutive.
      * by apply Hties.
  - destruct (sort_asc_ok l Hl) as (s & Hs & Hperm).
    exists s. split; [exact Hs|]. split; [exact Hperm|]. split.
    + by apply (sort_asc_sorted l).
    + intros b Hb. apply sort_asc_stable; auto. by apply Hties.
Qed.

(** Without ties the descending order is the ascending one read
    backwards. *)
Lemma sorted_reverse_tie_free (l : list A) :
  Forall P l →
  (∀ x y, x ∈ l → y ∈ l → ties ltb x y → x = y) →
  ∃ asc, sorted lt false l = ret asc ∧ sorted lt true l = ret (reverse asc).
Proof.
  intros Hl Hfree.
  assert (Hrev : Forall P (reverse l)).
  { rewrite Forall_forall in Hl |- *. intros a Ha. apply Hl. by apply elem_of_reverse. }
  destruct (sort_asc_ok l Hl) as (s & Hs & Hperm).
  destruct (sort_asc_ok (reverse l) Hrev) as (s' & Hs' & Hperm').
  exists s. unfold sorted. rewrite Hs, Hs'. simpl. split; [reflexivity|].
  do 2 f_equal.
  apply (StronglySorted_unique_strong (not_after ltb)).
  - intros x y Hx Hy Hxy Hyx. apply Hfree.
    + rewrite Hperm' in Hx. by apply elem_of_reverse.
    + by rewrite Hperm in Hy.
    + split; assumption.
  - by apply (sort_asc_sorted (reverse l)).
  - by apply (sort_asc_sorted l).
  - by rewrite Hperm', reverse_Permutation, Hperm.
Qed.

End StableSort.

(** ** The three orders behind [value_lt] *)

Lemma string_compare_refl (s : string) : String.compare s s = Eq.
Proof.
  induction s as [|c s IH]; simpl; [reflexivity|].
  unfold Ascii.compare. rewrite N.compare_refl. exact IH.
Qed.

Lemma string_compare_trans (a b c : string) :
  String.compare a b = Lt → String.compare b c = Lt → String.compare a c = Lt.
Proof.
  revert b c. induction a as [|x a IH]; intros [|y b] [|z c]; simpl; try done.
  unfold Ascii.compare.
  destruct (N.compare_spec (N_of_ascii x) (N_of_ascii y)) as [Exy|Lxy|Gxy]; try done;
    destruct (N.compare_spec (N_of_ascii y) (N_of_ascii z)) as [Eyz|Lyz|Gyz]; try done;
    intros Hab Hbc.
  - rewrite Exy, Eyz, N.compare_refl. by apply (IH b).
  - rewrite Exy. by apply N.compare_lt_iff in Lyz as ->.
  - rewrite <- Eyz. by apply N.compare_lt_iff in Lxy as ->.
  - assert (Lxz : (N_of_ascii x < N_of_ascii z)%N) by lia.
    by apply N.compare_lt_iff in Lxz as ->.
Qed.

Lemma string_ltb_asym (a b : string) : String.ltb a b = true → String.ltb b a = false.
Proof.
  unfold String.ltb. rewrite (String.compare_antisym a b).
  destruct (String.compare b a); simpl; done.
Qed.

Lemma string_ltb_negtrans (a b c : string) :
  String.ltb a b = false → String.ltb b c = false → String.ltb a c = false.
Proof.
  unfold String.ltb. intros Hab Hbc.
  destruct (String.compare a c) eqn:Hac; try done. exfalso.
  destruct (String.compare a b) eqn:Eab; try done.
  - apply String.compare_eq_iff in Eab as ->. by rewrite Hac in Hbc.
  - destruct (String.compare b c) eqn:Ebc; try done.
    + apply String.compare_eq_iff in Ebc as ->. by rewrite Hac in Eab.
    + rewrite String.compare_antisym in Eab, Ebc.
      assert (Hba : String.compare b a = Lt) by (by destruct (String.compare b a)).
      assert (Hcb : String.compare c b = Lt) by (by destruct (String.compare c b)).
      pose proof (string_compare_trans c b a Hcb Hba) as Hca.
      rewrite String.compare_antisym, Hca in Hac. done.
Qed.

Lemma lex_lt_asym x y : lex_lt x y → ¬ lex_lt y x.
Proof. destruct x as [[? ?] ?], y as [[? ?] ?]. simpl. lia. Qed.

Lemma lex_lt_negtrans x y z : ¬ lex_lt x y → ¬ lex_lt y z → ¬ lex_lt x z.
Proof. destruct x as [[? ?] ?], y as [[? ?] ?], z as [[? ?] ?]. simpl. lia. Qed.

Lemma SFltb_rank (f1 f2 : spec_float) :
  f1 ≠ S754_nan → f2 ≠ S754_nan →
  SFltb f1 f2 = true ↔ lex_lt (rank f1) (rank f2).
Proof.
  intros H1 H2. unfold SFltb.
  destruct f1 as [s1|s1| |s1 m1 e1], f2 as [s2|s2| |s2 m2 e2]; try done;
    try (destruct s1); try (destruct s2); simpl; try (intuition (done || lia)).
  - rewrite Pos.compare_cont_spec. simpl.
    destruct (Z.compare_spec e1 e2); [destruct (Pos.compare_spec m1 m2)| |];
      simpl; intuition (done || lia).
  - rewrite Pos.compare_cont_spec. simpl.
    destruct (Z.compare_spec e1 e2); [destruct (Pos.compare_spec m1 m2)| |];
      simpl; intuition (done || lia).
Qed.

Lemma not_nan_spec (f : float) : PrimFloat.is_nan f = false → Prim2SF f ≠ S754_nan.
Proof.
  unfold PrimFloat.is_nan. rewrite FloatAxioms.eqb_spec. intros H Hnan.
  rewrite Hnan in H. done.
Qed.

Lemma float_ltb_rank (x y : float) :
  PrimFloat.is_nan x = false → PrimFloat.is_nan y = false →
  PrimFloat.ltb x y = true ↔ lex_lt (rank (Prim2SF x)) (rank (Prim2SF y)).
Proof.
  intros Hx Hy. rewrite FloatAxioms.ltb_spec.
  apply SFltb_rank; by apply not_nan_spec.
Qed.

Lemma float_ltb_asym (x y : float) :
  PrimFloat.is_nan x = false → PrimFloat.is_nan y = false →
  PrimFloat.ltb x y = true → PrimFloat.ltb y x = false.
Proof.
  intros Hx Hy Hlt. apply (float_ltb_rank x y Hx Hy) in Hlt.
  apply not_true_is_false. rewrite (float_ltb_rank y x Hy Hx).
  by apply lex_lt_asym.
Qed.

Lemma float_ltb_negtrans (x y z : float) :
  PrimFloat.is_nan x = false → PrimFloat.is_nan y = false → PrimFloat.is_nan z = false →
  PrimFloat.ltb x y = false → PrimFloat.ltb y z = false → PrimFloat.ltb x z = false.
Proof.
  intros Hx Hy Hz Hxy Hyz. apply not_true_is_false.
  rewrite (float_ltb_rank x z Hx Hz).
  apply (lex_lt_negtrans _ (rank (Prim2SF y))).
  - rewrite <- (float_ltb_rank x y Hx Hy). by rewrite Hxy.
  - rewrite <- (float_ltb_rank y z Hy Hz). by rewrite Hyz.
Qed.

(** ** Sorting the records by a key *)

Ltac case_key k :=
  unfold get;
  destruct (String.eqb k "name");
  [|destruct (String.eqb k "lat");
    [|destruct (String.eqb k "lng");
      [|destruct (String.eqb k "tz");
        [|destruct (String.eqb k "pop");
          [|destruct (String.eqb k "loc")]]]]].

(** Under one key all records hold values of one type. *)
Lemma get_same_kind (k : string) (a b : City) :
  match get a k, get b k with
  | VStr _, VStr _ | VFloat _, VFloat _ | VInt _, VInt _ | VNone, VNone => True
  | _, _ => False
  end.
Proof. case_key k; exact I. Qed.

Lemma key_ltb_defined (k : string) (a b : City) :
  comparable (get a k) = true → comparable (get b k) = true →
  value_lt (get a k) (get b k) = ret (key_ltb k a b).
Proof.
  unfold key_ltb. case_key k; simpl; intros _ Hb; try discriminate Hb;
    match goal with |- ret ?b = _ => destruct b; reflexivity end.
Qed.

Lemma key_ltb_asym (k : string) (a b : City) :
  comparable (get a k) = true → comparable (get b k) = true →
  key_ltb k a b = true → key_ltb k b a = false.
Proof.
  unfold key_ltb. case_key k; simpl; intros Ha Hb; try discriminate Hb.
  1,4,6: intros H; match goal with
    |- context [String.ltb ?x ?y] =>
        rewrite (string_ltb_asym y x); [reflexivity | by destruct (String.ltb y x)]
    end.
  1,2: apply negb_true_iff in Ha, Hb; intros H;
    match goal with
    |- context [PrimFloat.ltb ?x ?y] =>
        rewrite (float_ltb_asym y x); [reflexivity | done | done |
                                       by destruct (PrimFloat.ltb y x)]
    end.
  intros H. destruct (Z.ltb_spec (pop a) (pop b)); [|done].
  destruct (Z.ltb_spec (pop b) (pop a)); [lia | done].
Qed.

Lemma key_ltb_negtrans (k : string) (a b c : City) :
  comparable (get a k) = true → comparable (get b k) = true →
  comparable (get c k) = true →
  key_ltb k a b = false → key_ltb k b c = false → key_ltb k a c = false.
Proof.
  unfold key_ltb. case_key k; simpl; intros Ha Hb Hc; try discriminate Hc.
  1,4,6: intros H1 H2; match goal with
    |- context [String.ltb ?x ?z] =>
        match type of H1 with context [String.ltb x ?y] =>
          rewrite (string_ltb_negtrans x y z); [reflexivity
            | by destruct (String.ltb x y) | by destruct (String.ltb y z)]
        end
    end.
  1,2: apply negb_true_iff in Ha, Hb, Hc; intros H1 H2;
    match goal with
    |- context [PrimFloat.ltb ?x ?z] =>
        match type of H1 with context [PrimFloat.ltb x ?y] =>
          rewrite (float_ltb_negtrans x y z); [reflexivity | done | done | done
            | by destruct (PrimFloat.ltb x y) | by destruct (PrimFloat.ltb y z)]
        end
    end.
  intros H1 H2.
  destruct (Z.ltb_spec (pop a) (pop b)); [done|].
  destruct (Z.ltb_spec (pop b) (pop c)); [done|].
  destruct (Z.ltb_spec (pop a) (pop c)); [lia | done].
Qed.

Lemma sortable_Forall (k : string) (data : list City) :
  sortable k data = true ↔ Forall (λ c, comparable (get c k) = true) data.
Proof.
  unfold sortable. rewrite forallb_forall, Forall_forall.
  split; intros H c Hc; apply H; by apply list_elem_of_In.
Qed.

(** The keys whose values are strings or integers order every table. *)
Lemma sortable_text_and_pop (k : string) (data : list City) :
  k ∈ ["name"; "tz"; "pop"; "loc"] → sortable k data = true.
Proof.
  intros Hk. apply sortable_Forall, Forall_forall. intros c _.
  repeat (apply elem_of_cons in Hk as [->|Hk]); try reflexivity.
  by apply elem_of_nil in Hk.
Qed.

(** A coordinate key orders a table exactly when no coordinate is a NaN. *)
Lemma sortable_coordinates (data : list City) :
  (sortable "lat" data = true ↔ Forall (λ c, PrimFloat.is_nan (lat c) = false) data)
  ∧ (sortable "lng" data = true ↔ Forall (λ c, PrimFloat.is_nan (lng c) = false) data).
Proof.
  split; rewrite sortable_Forall; apply Forall_proper; try done;
    intros c; simpl; apply negb_true_iff.
Qed.

Lemma NoDup_fmap_inj_on {A B} (f : A → B) (l : list A) (x y : A) :
  NoDup (f <$> l) → x ∈ l → y ∈ l → f x = f y → x = y.
Proof.
  induction l as [|a l IH]; [by intros _ ?%elem_of_nil|].
  rewrite fmap_cons, NoDup_cons. intros [Hnot Hnd] Hx Hy Hxy.
  apply elem_of_cons in Hx as [->|Hx]; apply elem_of_cons in Hy as [->|Hy]; auto.
  - exfalso. apply Hnot. rewrite Hxy. by apply list_elem_of_fmap_2.
  - exfalso. apply Hnot. rewrite <- Hxy. by apply list_elem_of_fmap_2.
Qed.

(** C2. When the sort key orders the records (it names a field, and
    no value compared is a NaN) the sort step returns a permutation of
    them that is in descending order of the key if [order] is ["desc"]
    and in ascending order for every other [order], and in which
    records that tie under the key keep their input order.  When no two
    records tie, the descending result is the reverse of the ascending
    one; this holds in particular for the key ["pop"] over records with
    pairwise distinct populations. *)
Theorem sort_step (k order : string) (data : list City) :
  sortable k data = true →
  (∃ out, apply_sort (Some k) order data = ret out ∧ stably_sorted k order data out)
  ∧ (tie_free k data →
     ∃ asc, apply_sort (Some k) "asc" data = ret asc
            ∧ apply_sort (Some k) "desc" data = ret (reverse asc))
  ∧ (NoDup (pop <$> data) →
     ∃ asc, apply_sort (Some "pop") "asc" data = ret asc
            ∧ apply_sort (Some "pop") "desc" data = ret (reverse asc)).
Proof.
  intros Hsortable.
  assert (Hgen : ∀ k', Forall (λ c, comparable (get c k') = true) data → truthy k' = true →
    (∃ out, apply_sort (Some k') order data = ret out ∧ stably_sorted k' order data out)
    ∧ (tie_free k' data →
       ∃ asc, apply_sort (Some k') "asc" data = ret asc
              ∧ apply_sort (Some k') "desc" data = ret (reverse asc))).
  { intros k' Hall Hk'. unfold apply_sort. rewrite Hk'. split.
    - destruct (sorted_spec (λ a b, value_lt (get a k') (get b k')) (key_ltb k')
                  (λ c, comparable (get c k') = true)
                  (key_ltb_defined k') (key_ltb_asym k') (key_ltb_negtrans k')
                  (String.eqb order "desc") data Hall)
        as (out & Hout & Hperm & Hsorted & Hstable).
      exists out. split; [exact Hout|]. split; [exact Hperm|]. split.
      + by destruct (String.eqb order "desc").
      + intros c Hc. apply Hstable. rewrite Forall_forall in Hall. by apply Hall.
    - intros Hfree.
      apply (sorted_reverse_tie_free (λ a b, value_lt (get a k') (get b k')) (key_ltb k')
               (λ c, comparable (get c k') = true)
               (key_ltb_defined k') (key_ltb_asym k') (key_ltb_negtrans k')
               data Hall Hfree). }
  apply sortable_Forall in Hsortable.
  assert (Hkk :
    (∃ out, apply_sort (Some k) order data = ret out ∧ stably_sorted k order data out)
    ∧ (tie_free k data →
       ∃ asc, apply_sort (Some k) "asc" data = ret asc
              ∧ apply_sort (Some k) "desc" data = ret (reverse asc))).
  { destruct (truthy k) eqn:Hk; [by apply Hgen|].
    destruct k; [|discriminate]. destruct data as [|c0 rest].
    - split.
      + exists []. unfold stably_sorted. simpl. repeat split; try done.
        destruct (String.eqb order "desc"); constructor.
      + intros _. exists []. by split.
    - apply Forall_cons in Hsortable as [H _]. discriminate H. }
  destruct Hkk as [H1 H2]. split; [exact H1|]. split; [exact H2|].
  intros Hnd. apply (Hgen "pop").
  - apply sortable_Forall. apply sortable_text_and_pop.
    do 2 apply list_elem_of_further. apply list_elem_of_here.
  - reflexivity.
  - intros x y Hx Hy [Hxy Hyx]. apply (NoDup_fmap_inj_on pop data); auto.
    unfold key_ltb in Hxy, Hyx. simpl in Hxy, Hyx.
    destruct (Z.ltb_spec (pop x) (pop y)); [done|].
    destruct (Z.ltb_spec (pop y) (pop x)); [done|]. lia.
Qed.

(** ** A sort key that names no field *)

Lemma sort_asc_raises {A} (lt : A → A → result bool) (e : exn) (l : list A) :
  (∀ a b, lt a b = raise e) → (2 ≤ length l)%nat → sort_asc lt l = raise e.
Proof.
  intros Hlt. induction l as [|x l IH]; intros Hlen; [simpl in Hlen; lia|].
  destruct l as [|y rest]; [simpl in Hlen; lia|].
  change (sort_asc lt (x :: y :: rest))
    with (bind (sort_asc lt (y :: rest)) (λ s, insert lt x s)).
  destruct rest as [|z rest].
  - simpl. by rewrite Hlt.
  - rewrite IH by (simpl; lia). reflexivity.
Qed.

Lemma sort_asc_short {A} (lt : A → A → result bool) (l : list A) :
  (length l < 2)%nat → sort_asc lt l = ret l.
Proof. destruct l as [|x [|y rest]]; simpl; intros; try lia; reflexivity. Qed.

Lemma get_unknown (k : string) (c : City) :
  k ∉ ["name"; "lat"; "lng"; "tz"; "pop"; "loc"] → get c k = VNone.
Proof.
  intros Hk. unfold get.
  repeat match goal with
         | |- context [String.eqb k ?f] =>
             destruct (String.eqb_spec k f) as [->|_];
             [exfalso; apply Hk; repeat (first [apply list_elem_of_here
                                               | apply list_elem_of_further])|]
         end.
  reflexivity.
Qed.

(** X3. What section 4.3 of the specification leaves open.  With a sort key
    that is not the name of a field every record has the key [None]:
    two records or more cannot be compared and the step raises
    [TypeError], which is answered with status 500; fewer than two are
    returned as they are, for either direction. *)
Lemma sort_unknown_key (k order : string) (data : list City) :
  truthy k = true → k ∉ ["name"; "lat"; "lng"; "tz"; "pop"; "loc"] →
  apply_sort (Some k) order data
  = if bool_decide (2 ≤ length data)%nat then raise TypeError else ret data.
Proof.
  intros Hk Hunknown. unfold apply_sort, sorted. rewrite Hk.
  assert (Hlt : ∀ a b : City, value_lt (get a k) (get b k) = raise TypeError).
  { intros a b. by rewrite !get_unknown. }
  case_bool_decide as Hlen.
  - destruct (String.eqb order "desc").
    + rewrite (sort_asc_raises _ TypeError) by (by rewrite ?length_reverse). reflexivity.
    + by rewrite (sort_asc_raises _ TypeError).
  - destruct (String.eqb order "desc").
    + rewrite sort_asc_short by (rewrite length_reverse; lia). simpl.
      by rewrite reverse_involutive.
    + apply sort_asc_short. lia.
Qed.

(** ** Any stable sort returns the same list *)

Lemma sorted_stable_unique {A} (R T : relation A) `{!∀ a c, Decision (T a c)}
    (l1 l2 : list A) :
  (∀ x, x ∈ l1 → T x x) →
  (∀ x y, x ∈ l1 → y ∈ l1 → R x y → R y x → T y x) →
  StronglySorted R l1 → StronglySorted R l2 → l1 ≡ₚ l2 →
  (∀ c, c ∈ l1 → filter (λ a, T a c) l1 = filter (λ a, T a c) l2) →
  l1 = l2.
Proof.
  intros Hrefl Hties Hs1. revert l2 Hrefl Hties.
  induction Hs1 as [|x t1 Hs1 IH Hx]; intros l2 Hrefl Hties Hs2 Hperm Hstable.
  { symmetry. by apply Permutation_nil. }
  destruct Hs2 as [|y t2 Hs2 Hy].
  { by apply Permutation_nil_r in Hperm. }
  assert (Hxy : x = y).
  { assert (Hyin : y ∈ x :: t1) by (rewrite Hperm; left).
    assert (Hxin : x ∈ y :: t2) by (rewrite <- Hperm; left).
    apply elem_of_cons in Hyin as [->|Hyin]; [done|].
    apply elem_of_cons in Hxin as [->|Hxin]; [done|].
    rewrite Forall_forall in Hx, Hy.
    assert (Tyx : T y x).
    { apply Hties; [left | by right | by apply Hx | by apply Hy]. }
    specialize (Hstable x ltac:(left)).
    rewrite (filter_cons_True _ x) in Hstable by (apply Hrefl; left).
    rewrite (filter_cons_True _ y) in Hstable by done.
    congruence. }
  subst y. f_equal. apply IH; auto.
  - intros z Hz. apply Hrefl. by right.
  - intros a b Ha Hb. apply Hties; by right.
  - by apply (inj (x ::.)).
  - intros c Hc. specialize (Hstable c ltac:(by right)).
    rewrite !(filter_cons _ x) in Hstable.
    destruct (decide (T x c)); congruence.
Qed.

Lemma key_ltb_irrefl (k : string) (a : City) :
  comparable (get a k) = true → key_ltb k a a = false.
Proof.
  intros Ha. destruct (key_ltb k a a) eqn:H; [|done].
  by rewrite (key_ltb_asym k a a Ha Ha H) in H.
Qed.

(** Two lists that are both [data] sorted stably by the key are the
    same list. *)
Lemma stably_sorted_unique (k order : string) (data out1 out2 : list City) :
  sortable k data = true →
  stably_sorted k order data out1 → stably_sorted k order data out2 →
  out1 = out2.
Proof.
  intros Hsortable (Hp1 & Hs1 & Hst1) (Hp2 & Hs2 & Hst2).
  apply sortable_Forall in Hsortable. rewrite Forall_forall in Hsortable.
  apply (sorted_stable_unique _ (ties (key_ltb k)) out1 out2) in Hs1; auto.
  - intros x Hx. rewrite Hp1 in Hx.
    split; apply key_ltb_irrefl; by apply Hsortable.
  - intros x y _ _. unfold ties. destruct (String.eqb order "desc");
      unfold flip, not_after; tauto.
  - by rewrite Hp1, Hp2.
  - intros c Hc. rewrite Hp1 in Hc. by rewrite Hst1, Hst2.
Qed.

Lemma apply_sort_stably_sorted (k order : string) (data : list City) :
  sortable k data = true →
  ∃ out, apply_sort (Some k) order data = ret out ∧ stably_sorted k order data out.
Proof.
  intros Hsortable. pose proof Hsortable as Hall. apply sortable_Forall in Hall.
  unfold apply_sort. destruct (truthy k) eqn:Hk.
  - destruct (sorted_spec (λ a b, value_lt (get a k) (get b k)) (key_ltb k)
                (λ c, comparable (get c k) = true)
                (key_ltb_defined k) (key_ltb_asym k) (key_ltb_negtrans k)
                (String.eqb order "desc") data Hall)
      as (out & Hout & Hperm & Hsorted & Hstable).
    exists out. split; [exact Hout|]. split; [exact Hperm|]. split.
    + by destruct (String.eqb order "desc").
    + intros c Hc. apply Hstable. rewrite Forall_forall in Hall. by apply Hall.
  - destruct k; [|discriminate]. destruct data as [|c0 rest]; [|discriminate Hsortable].
    exists []. split; [reflexivity|]. unfold stably_sorted. repeat split; try done.
    destruct (String.eqb order "desc"); constructor.
Qed.

(** X2. When the sort key orders the records, the sort step returns a list
    exactly when that list is [data] sorted stably by the key in the
    direction asked for: what [apply_sort] returns is the one stable
    sort of the records, whichever stable sorting algorithm
    [list.sort] runs. *)
Theorem apply_sort_is_the_stable_sort (k order : string) (data out : list City) :
  sortable k data = true →
  apply_sort (Some k) order data = ret out ↔ stably_sorted k order data out.
Proof.
  intros Hsortable.
  destruct (apply_sort_stably_sorted k order data Hsortable) as (out0 & Hout0 & Hs0).
  split.
  - intros Hout. rewrite Hout0 in Hout. unfold ret in Hout. injection Hout as <-.
    exact Hs0.
  - intros Hs. by rewrite (stably_sorted_unique k order data out out0 Hsortable Hs Hs0).
Qed.

(** ** Memoisation *)

(** X1. After one load that succeeds, any number of further calls return
    the same records and leave the state alone: the file is read
    once. *)
Lemma load_repeatedly_once py_float py_int reader (records : list City)
    (n : nat) (st : State) :
  cache st = None →
  load_cities py_float py_int reader = ret records →
  load_repeatedly py_float py_int reader (S n) st
  = (mkState (Some records) (S (file_reads st)), replicate (S n) (ret records)).
Proof.
  intros Hcache Hload.
  assert (Hwarm : ∀ m st', cache st' = Some records →
            load_repeatedly py_float py_int reader m st' = (st', replicate m (ret records))).
  { induction m as [|m IH]; intros st' Hst'; [done|].
    simpl. unfold load_cities_cached at 1. rewrite Hst'. by rewrite (IH st' Hst'). }
  simpl. unfold load_cities_cached at 1. rewrite Hcache, Hload.
  by rewrite Hwarm.
Qed.

(** ** The rate limiter *)

Section LimiterFacts.

Import Limiter.

Implicit Types (m : gmap string (list Z)) (key : string) (now t : Z) (log : list Z).

Lemma admit_key_decision key now m :
  (admit_key key now m).2 = (admit_log now (log_of m key)).2.
Proof. unfold admit_key, log_of. by destruct (admit_log _ _). Qed.

Lemma admit_key_log key now m :
  log_of (admit_key key now m).1 key = (admit_log now (log_of m key)).1.
Proof.
  unfold admit_key, log_of. destruct (admit_log _ _) as [l d]. simpl.
  by rewrite lookup_insert_eq.
Qed.

Lemma admit_key_other key key' now m :
  key ≠ key' → (admit_key key now m).1 !! key' = m !! key'.
Proof.
  intros Hne. unfold admit_key. destruct (admit_log _ _) as [l d]. simpl.
  by rewrite lookup_insert_ne.
Qed.

Lemma admit_key_log_other key key' now m :
  key ≠ key' → log_of (admit_key key now m).1 key' = log_of m key'.
Proof. intros Hne. unfold log_of. by rewrite admit_key_other. Qed.

Lemma admit_all_cons key now (rest : list (string * Z)) m :
  admit_all ((key, now) :: rest) m =
  ((admit_all rest (admit_key key now m).1).1,
   (admit_key key now m).2 :: (admit_all rest (admit_key key now m).1).2).
Proof.
  simpl. destruct (admit_key key now m) as [m1 d]. simpl.
  by destruct (admit_all rest m1).
Qed.

Lemma live_live now t log : t ≤ now → live now (live t log) = live now log.
Proof.
  intros Hle. unfold live. rewrite list_filter_filter.
  apply list_filter_iff. intros x. unfold window. lia.
Qed.

Lemma live_all now log :
  Forall (λ x, now - x < window) log → live now log = log.
Proof.
  induction 1 as [|x l Hx _ IH]; [done|].
  unfold live in *. by rewrite filter_cons_True, IH.
Qed.

(** The log of a key only depends on the checks of that key. *)
Lemma admit_all_log_own key (checks : list (string * Z)) m m' :
  log_of m key = log_of m' key →
  log_of (admit_all checks m).1 key
  = log_of (admit_all (filter (λ c, c.1 = key) checks) m').1 key.
Proof.
  revert m m'. induction checks as [|[k t] rest IH]; intros m m' Hlog; [done|].
  rewrite admit_all_cons. simpl.
  destruct (decide (k = key)) as [->|Hne].
  - rewrite filter_cons_True by done. rewrite admit_all_cons. simpl.
    apply IH. by rewrite !admit_key_log, Hlog.
  - rewrite filter_cons_False by done. apply IH.
    by rewrite admit_key_log_other.
Qed.

(** What the log of a key holds at a time [now] that none of its checks
    is later than: what it held before, and the checks allowed since. *)
Lemma admit_all_live key now (checks : list (string * Z)) m :
  Forall (λ c, c.1 = key → c.2 ≤ now) checks →
  length (live now (log_of (admit_all checks m).1 key))
  = (length (live now (log_of m key))
     + admitted_in_window key now (zip checks (admit_all checks m).2))%nat.
Proof.
  revert m. induction checks as [|[k t] rest IH]; intros m Hall.
  { simpl. unfold admitted_in_window. simpl. lia. }
  apply Forall_cons in Hall as [Ht Hall]. simpl in Ht.
  rewrite admit_all_cons. simpl. rewrite (IH _ Hall).
  unfold admitted_in_window. rewrite filter_cons. simpl.
  destruct (decide (k = key)) as [->|Hne].
  - rewrite admit_key_log, admit_key_decision. unfold admit_log.
    case_bool_decide as Hroom; simpl.
    + unfold live at 1. rewrite filter_cons. fold (live now (live t (log_of m key))).
      rewrite (live_live now t) by auto.
      destruct (decide (now - t < window)) as [Hin|Hout].
      * rewrite decide_True by done. simpl. lia.
      * rewrite decide_False by tauto. simpl. lia.
    + rewrite (live_live now t) by auto.
      rewrite decide_False by (intros (_ & ? & _); done). lia.
  - rewrite admit_key_log_other by done.
    rewrite decide_False by tauto. lia.
Qed.

(** Checks of one key that all fall in one window, on a log that lies
    in that window: they are allowed until the log holds [quota]
    entries and rejected from then on. *)
Lemma admit_all_one_window key t0 (ts : list Z) m :
  Forall (λ t, t0 ≤ t < t0 + window) ts →
  Forall (λ t, t0 ≤ t < t0 + window) (log_of m key) →
  (admit_all ((key,.) <$> ts) m).2
  = (replicate (length ts `min` (quota - length (log_of m key))) true
     ++ replicate (length ts - (quota - length (log_of m key))) false)%list.
Proof.
  intros Hts. revert m. induction Hts as [|t ts Ht _ IH]; intros m Hlog; [done|].
  rewrite fmap_cons, admit_all_cons. simpl.
  assert (Hlive : live t (log_of m key) = log_of m key).
  { apply live_all. eapply Forall_impl; [exact Hlog|]. simpl. intros x. lia. }
  rewrite IH; rewrite admit_key_log, ?admit_key_decision; unfold admit_log; rewrite Hlive.
  - case_bool_decide as Hroom; simpl.
    + replace (quota - length (log_of m key))%nat
        with (S (9 - length (log_of m key))) by (unfold quota in *; lia).
      reflexivity.
    + replace (quota - length (log_of m key))%nat with 0%nat by lia.
      rewrite Nat.min_0_r. simpl. by rewrite Nat.sub_0_r.
  - case_bool_decide; simpl; [constructor|]; done.
Qed.

End LimiterFacts.

Section LimiterClaims.

Variable partial_ratio : string → string → float.
Variable lower : string → string.
Variable py_float : string → option float.
Variable py_int : string → option Z.
Variable reader : list (list string).

Local Abbreviation endpoint' := (endpoint partial_ratio lower py_float py_int reader).
Local Abbreviation endpoint_all' :=
  (endpoint_all partial_ratio lower py_float py_int reader).
Local Abbreviation get_cities' := (get_cities partial_ratio lower py_float py_int reader).

(** The handler itself never answers with status 429. *)
Lemma get_cities_status (p : Query.t) (st : State) :
  status (respond (get_cities' p st).2) ≠ 429.
Proof.
  destruct (has_filter p) eqn:Hp.
  - rewrite (get_cities_proceeds _ _ _ _ _ p st Hp). simpl.
    assert (Hr : raises_http
              (bind (load_cities_cached py_float py_int reader st).2
                    (query partial_ratio lower p)) = false).
    { apply bind_not_http; [apply load_cities_cached_not_http|].
      intros data. apply query_not_http. }
    destruct (bind _ _) as [e|page]; [|discriminate].
    destruct e; try discriminate.
  - by rewrite (get_cities_rejects _ _ _ _ _ p st Hp).
Qed.

(** What a response tells of the decision of the limiter. *)
Lemma endpoint_decision (key : string) (now : Z) (p : Query.t) (w : World) :
  limiter (endpoint' key now p w).1 = (Limiter.admit_key key now (limiter w)).1
  ∧ if (Limiter.admit_key key now (limiter w)).2
    then status (endpoint' key now p w).2 ≠ 429
    else (endpoint' key now p w).2 = rate_limit_exceeded_handler.
Proof.
  unfold endpoint.
  destruct (Limiter.admit_key key now (limiter w)) as [lim allowed]. simpl.
  destruct allowed; [|done].
  pose proof (get_cities_status p (app w)) as Hs.
  by destruct (get_cities' p (app w)).
Qed.

(** Over any sequence of requests the endpoint hands the limiter from
    one request to the next: the limiter ends in the state the checks
    alone lead to, and the responses with status 429 are those of the
    checks it rejects. *)
Lemma endpoint_all_decisions (reqs : list (string * Z * Query.t)) (w : World) :
  limiter (endpoint_all' reqs w).1 = (Limiter.admit_all (reqs.*1) (limiter w)).1
  ∧ Forall2 (λ (d : bool) r,
               if d then status r ≠ 429 else r = rate_limit_exceeded_handler)
            (Limiter.admit_all (reqs.*1) (limiter w)).2 (endpoint_all' reqs w).2.
Proof.
  revert w. induction reqs as [|[[key now] p] rest IH]; intros w.
  { simpl. split; [done | constructor]. }
  rewrite fmap_cons. cbn [fst]. rewrite admit_all_cons.
  cbn [endpoint_all].
  destruct (endpoint_decision key now p w) as [Hlim Hdec].
  destruct (endpoint' key now p w) as [w1 r] eqn:Hw1. cbn [fst snd] in Hlim, Hdec.
  destruct (IH w1) as [IHlim IHdec]. rewrite Hlim in IHlim, IHdec.
  destruct (endpoint_all' rest w1) as [w2 rs]. cbn [fst snd] in *.
  split; [exact IHlim|]. by constructor.
Qed.

(** C9. For a client key and any state of the limiter:
    - eleven checks of a key with no log, all within one 60-second
      window, are decided ten times allowed and then rejected;
    - whenever ten checks of the key were allowed in the 60 seconds
      before a check, that check is rejected, so no window holds more
      than ten admissions;
    - the first check of a key with no log is allowed, whatever the
      checks of other keys before it;
    - the decision for a key is the one it would get had the other
      keys' checks, allowed or rejected, never been made;
    - a rejected check is answered with status 429 and the body
      ["Too Many Requests"], and the handler does not run;
    - over any sequence of requests the endpoint carries the limiter
      from each request to the next, and answers with that response
      exactly the requests whose check is rejected;
    - so of eleven requests of a key with no log, all within one
      60-second window, the first ten are not answered 429 and the
      eleventh is. *)
Theorem rate_limit (key : string) (m : gmap string (list Z)) :
  (∀ (ts : list Z) t0,
     m !! key = None → length ts = 11%nat → Forall (λ t, t0 ≤ t < t0 + 60) ts →
     (Limiter.admit_all ((key,.) <$> ts) m).2 = (replicate 10 true ++ [false])%list)
  ∧ (∀ (checks : list (string * Z)) now,
       Forall (λ c, c.1 = key → c.2 ≤ now) checks →
       (10 ≤ Limiter.admitted_in_window key now
               (zip checks (Limiter.admit_all checks m).2))%nat →
       (Limiter.admit_key key now (Limiter.admit_all checks m).1).2 = false)
  ∧ (∀ (checks : list (string * Z)) now,
       m !! key = None → Forall (λ c, c.1 ≠ key) checks →
       (Limiter.admit_key key now (Limiter.admit_all checks m).1).2 = true)
  ∧ (∀ (checks : list (string * Z)) now,
       (Limiter.admit_key key now (Limiter.admit_all checks m).1).2
       = (Limiter.admit_key key now
            (Limiter.admit_all (filter (λ c, c.1 = key) checks) m).1).2)
  ∧ (∀ now p w,
       (Limiter.admit_key key now (limiter w)).2 = false →
       (endpoint' key now p w).2 = mkResponse 429 (Text "Too Many Requests")
       ∧ app (endpoint' key now p w).1 = app w)
  ∧ (∀ (reqs : list (string * Z * Query.t)) w,
       limiter w = m →
       limiter (endpoint_all' reqs w).1 = (Limiter.admit_all (reqs.*1) m).1
       ∧ Forall2 (λ (d : bool) r,
                    if d then status r ≠ 429
                    else r = mkResponse 429 (Text "Too Many Requests"))
                 (Limiter.admit_all (reqs.*1) m).2 (endpoint_all' reqs w).2)
  ∧ (∀ (ts : list Z) (ps : list Query.t) t0 w,
       limiter w = m → m !! key = None →
       length ts = 11%nat → length ps = 11%nat →
       Forall (λ t, t0 ≤ t < t0 + 60) ts →
       Forall2 (λ (d : bool) r,
                  if d then status r ≠ 429
                  else r = mkResponse 429 (Text "Too Many Requests"))
               (replicate 10 true ++ [false])
               (endpoint_all' (zip ((key,.) <$> ts) ps) w).2).
Proof.
  assert (Heleven : ∀ (ts : list Z) t0,
     m !! key = None → length ts = 11%nat → Forall (λ t, t0 ≤ t < t0 + 60) ts →
     (Limiter.admit_all ((key,.) <$> ts) m).2 = (replicate 10 true ++ [false])%list).
  { intros ts t0 Hfresh Hlen Hts.
    rewrite (admit_all_one_window key t0 ts m Hts).
    - unfold Limiter.log_of. rewrite Hfresh, Hlen. reflexivity.
    - unfold Limiter.log_of. rewrite Hfresh. constructor. }
  split; [exact Heleven|].
  split; [|split; [|split; [|split; [|split]]]]; cycle 4.
  { intros reqs w <-. apply endpoint_all_decisions. }
  { intros ts ps t0 w <- Hfresh Hts Hps Hwin.
    pose proof (endpoint_all_decisions (zip ((key,.) <$> ts) ps) w) as [_ Hdec].
    rewrite fst_zip in Hdec by (rewrite length_fmap; lia).
    by rewrite (Heleven ts t0 Hfresh Hts Hwin) in Hdec. }
  - intros checks now Hle Hten.
    rewrite admit_key_decision. unfold Limiter.admit_log.
    pose proof (admit_all_live key now checks m Hle) as Hlive.
    rewrite bool_decide_eq_false_2; [reflexivity|]. unfold Limiter.quota. lia.
  - intros checks now Hfresh Hothers.
    rewrite admit_key_decision.
    rewrite (admit_all_log_own key checks m m eq_refl).
    replace (filter (λ c, c.1 = key) checks) with (@nil (string * Z)).
    + simpl. unfold Limiter.log_of. rewrite Hfresh. reflexivity.
    + symmetry. induction Hothers as [|c cs Hc _ IH]; [done|].
      by rewrite filter_cons_False.
  - intros checks now. rewrite !admit_key_decision. f_equal.
    rewrite (admit_all_log_own key checks m m eq_refl).
    symmetry. rewrite (admit_all_log_own key _ m m eq_refl).
    by rewrite list_filter_filter_l.
  - intros now p w Hrej. unfold endpoint.
    destruct (Limiter.admit_key key now (limiter w)) as [lim allowed].
    simpl in Hrej. subst allowed. split; reflexivity.
Qed.

End LimiterClaims.

(** * The statements at concrete inputs *)

(** ** Where the written specification and the program part *)

(** With an empty [q] the name filter keeps every record, whatever the
    scoring function; with the sample scorer both cities are kept at a
    score of 0, which is not at least 70. *)
Lemma name_filter_keeps_all_on_empty_q :
  (∀ partial_ratio lower data, filter_q partial_ratio lower (Some "") data = data)
  ∧ filter_q Sample.partial_ratio Sample.lower (Some "") Sample.cities = Sample.cities
  ∧ length Sample.cities = 2%nat
  ∧ Forall (λ c, Sample.partial_ratio (Sample.lower "") (Sample.lower (name c)) = 0%float
                 ∧ (70 <=? Sample.partial_ratio (Sample.lower "")
                             (Sample.lower (name c)))%float = false)
           Sample.cities.
Proof.
  split; [reflexivity|]. split; [reflexivity|]. split; [reflexivity|].
  repeat (apply Forall_cons; split; [split; reflexivity|]). apply Forall_nil. exact I.
Qed.

(** The page for a negative offset or a negative limit is taken from the
    end of the sequence; it is neither empty nor the clamped window. *)
Lemma paginate_negative_bounds :
  paginate [1; 2; 3; 4; 5] (-3) 2 = [3; 4]
  ∧ clamped_window [1; 2; 3; 4; 5] (-3) 2 = []
  ∧ paginate [1; 2; 3; 4; 5] 0 (-1) = [1; 2; 3; 4]
  ∧ clamped_window [1; 2; 3; 4; 5] 0 (-1) = [].
Proof. repeat split; reflexivity. Qed.

(** A request that supplies [q], as the empty string, and nothing else
    is rejected with status 400. *)
Lemma empty_q_supplied_and_rejected :
  supplies_filter (Query.with_q (Some "") Query.default)
  ∧ Sample.handler (Query.with_q (Some "") Query.default) startup
    = (startup, raise (HTTPException 400 no_filter_detail)).
Proof. split; [left; by eexists | reflexivity]. Qed.

(** Two different rows with the same malformed latitude raise the same
    exception, a [ValueError] that holds the text of the field: the
    exception identifies no record.  Nothing is loaded at start-up, and
    with a malformed row in the file each request reads the file again
    and fails again. *)
Lemma malformed_latitude_outcome :
  load_cities Sample.float Sample.int [Sample.london_bad]
    = raise (ValueError ToFloat "north")
  ∧ load_cities Sample.float Sample.int [Sample.new_york_bad]
    = raise (ValueError ToFloat "north")
  ∧ Sample.london_bad ≠ Sample.new_york_bad
  ∧ cache startup = None ∧ file_reads startup = 0%nat
  ∧ (let serve := get_cities Sample.partial_ratio Sample.lower Sample.float Sample.int
                    [Sample.london; Sample.new_york_bad] Sample.any_city in
     (serve startup).2 = raise (ValueError ToFloat "north")
     ∧ (serve (serve startup).1).2 = raise (ValueError ToFloat "north")
     ∧ (serve (serve startup).1).1 = mkState None 2).
Proof. repeat split; try reflexivity. discriminate. Qed.

(** ** Instances of the theorems *)

Lemma name_filter_threshold_witness :
  (∀ c, c ∈ filter_q Sample.partial_ratio Sample.lower (Some "YORK") Sample.cities
        ↔ c ∈ Sample.cities
          ∧ (truthy "YORK" = true →
             (70 <=? Sample.partial_ratio (Sample.lower "YORK") (Sample.lower (name c)))%float
             = true))
  ∧ (∀ nm mask_q mask_nm,
       ascii_only nm = true →
       matches Sample.partial_ratio Sample.lower
         (ascii_recase mask_q "YORK") (ascii_recase mask_nm nm)
       = matches Sample.partial_ratio Sample.lower "YORK" nm).
Proof.
  destruct (name_filter_threshold Sample.partial_ratio Sample.lower "YORK" Sample.cities)
    as (Hkeep & _ & Hcase).
  split; [exact Hkeep|].
  intros nm mq mn Hnm. apply Hcase; [reflexivity | reflexivity | exact Hnm].
Defined.

Lemma sort_step_witness :
  (∃ out, apply_sort (Some "pop") "desc" Sample.cities = ret out
          ∧ stably_sorted "pop" "desc" Sample.cities out)
  ∧ (tie_free "pop" Sample.cities →
     ∃ asc, apply_sort (Some "pop") "asc" Sample.cities = ret asc
            ∧ apply_sort (Some "pop") "desc" Sample.cities = ret (reverse asc))
  ∧ (NoDup (pop <$> Sample.cities) →
     ∃ asc, apply_sort (Some "pop") "asc" Sample.cities = ret asc
            ∧ apply_sort (Some "pop") "desc" Sample.cities = ret (reverse asc)).
Proof. exact (sort_step "pop" "desc" Sample.cities eq_refl). Defined.

Lemma paginate_slice_witness :
  paginate [1; 2; 3; 4; 5] 3 4 = clamped_window [1; 2; 3; 4; 5] 3 4
  ∧ adjust_index (-3) 5 = 2.
Proof.
  destruct (paginate_slice [1; 2; 3; 4; 5] 3 4) as (_ & _ & Hwin & _).
  destruct (paginate_slice [1; 2; 3; 4; 5] (-3) 2) as (_ & _ & _ & Hneg & _).
  split; [apply Hwin; lia | apply Hneg; lia].
Defined.

Lemma get_cities_validation_witness :
  (Sample.handler Query.default startup
     = (startup, raise (HTTPException 400 no_filter_detail))
   ∧ status (respond (Sample.handler Query.default startup).2) = 400)
  ∧ raises_http (Sample.handler Sample.any_city startup).2 = false.
Proof.
  split.
  - exact (proj1 (get_cities_validation Sample.partial_ratio Sample.lower Sample.float Sample.int
                    Sample.reader Query.default startup) eq_refl).
  - exact (proj2 (proj2 (get_cities_validation Sample.partial_ratio Sample.lower Sample.float
                           Sample.int Sample.reader Sample.any_city startup) eq_refl)).
Defined.

Lemma pagination_reconstructs_witness :
  (∀ offset, Z.of_nat (length (paginate [1; 2; 3; 4; 5] offset 2)) ≤ 2)
  ∧ (∀ m : nat, concat (pages [1; 2; 3; 4; 5] 2 m) = take (m * Z.to_nat 2) [1; 2; 3; 4; 5])
  ∧ (∀ m : nat, Z.of_nat (length [1; 2; 3; 4; 5]) ≤ Z.of_nat m * 2 →
       concat (pages [1; 2; 3; 4; 5] 2 m) = [1; 2; 3; 4; 5]
       ∧ paginate [1; 2; 3; 4; 5] (Z.of_nat m * 2) 2 = []).
Proof. exact (pagination_reconstructs [1; 2; 3; 4; 5] 2 eq_refl). Defined.

Lemma load_cities_positional_witness :
  ∃ records, load_cities Sample.float Sample.int Sample.reader = ret records
             ∧ Forall2 (row_maps_to Sample.float Sample.int) Sample.reader records.
Proof.
  apply load_cities_positional.
  apply Forall_cons; split; [reflexivity|].
  apply Forall_cons; split; [reflexivity|]. apply Forall_nil. exact I.
Defined.

Lemma load_cities_malformed_witness :
  ∃ e, load_cities Sample.float Sample.int [Sample.london; Sample.new_york_bad] = raise e
       ∧ is_http e = false
       ∧ (∀ pre post, [Sample.london; Sample.new_york_bad]
                      = (pre ++ Sample.new_york_bad :: post)%list →
            Forall (λ r, is_ok (load_row Sample.float Sample.int r) = true) pre →
            ∃ c s, offending Sample.float Sample.int Sample.new_york_bad c s
                   ∧ e = ValueError c s)
       ∧ (∀ p st, has_filter p = true → cache st = None →
            get_cities Sample.partial_ratio Sample.lower Sample.float Sample.int
              [Sample.london; Sample.new_york_bad] p st
            = (mkState None (S (file_reads st)), raise e)).
Proof.
  apply load_cities_malformed.
  - apply list_elem_of_further, list_elem_of_here.
  - exists ToFloat, "north". split; [left; reflexivity | reflexivity].
Defined.

Lemma rate_limit_witness :
  (Limiter.admit_all ((Sample.client,.) <$> [0; 5; 10; 15; 20; 25; 30; 35; 40; 45; 59]) ∅).2
    = [true; true; true; true; true; true; true; true; true; true; false]
  ∧ (Limiter.admit_key Sample.client 30
       (Limiter.admit_all [("198.51.100.1", 1); ("198.51.100.1", 2)] ∅).1).2 = true
  ∧ Forall2 (λ (d : bool) r,
               if d then status r ≠ 429
               else r = mkResponse 429 (Text "Too Many Requests"))
            [true; true; true; true; true; true; true; true; true; true; false]
            (endpoint_all Sample.partial_ratio Sample.lower Sample.float Sample.int
               Sample.reader
               (zip ((Sample.client,.) <$> [0; 5; 10; 15; 20; 25; 30; 35; 40; 45; 59])
                    (replicate 11 Sample.any_city))
               (mkWorld ∅ startup)).2.
Proof.
  pose proof (rate_limit Sample.partial_ratio Sample.lower Sample.float Sample.int Sample.reader
                Sample.client ∅) as (Heleven & _ & Hfirst & _ & _ & _ & Hserved).
  split; [|split].
  - apply (Heleven _ 0); [apply lookup_empty | reflexivity|].
    repeat (apply Forall_cons; split; [lia|]). apply Forall_nil. exact I.
  - apply Hfirst; [apply lookup_empty|].
    repeat (apply Forall_cons; split; [discriminate|]). apply Forall_nil. exact I.
  - apply (Hserved _ _ 0); [reflexivity | apply lookup_empty | reflexivity | reflexivity|].
    repeat (apply Forall_cons; split; [lia|]). apply Forall_nil. exact I.
Defined.

(** The same eleven requests, computed: ten pages and the rejection. *)
Lemma eleven_requests_statuses :
  status <$> (endpoint_all Sample.partial_ratio Sample.lower Sample.float Sample.int
                Sample.reader
                (zip ((Sample.client,.) <$> [0; 5; 10; 15; 20; 25; 30; 35; 40; 45; 59])
                     (replicate 11 Sample.any_city))
                (mkWorld ∅ startup)).2
  = [200; 200; 200; 200; 200; 200; 200; 200; 200; 200; 429].
Proof. vm_compute. reflexivity. Qed.

Lemma load_repeatedly_once_witness :
  load_repeatedly Sample.float Sample.int Sample.reader 3 startup
  = (mkState (Some Sample.cities) 1, replicate 3 (ret Sample.cities)).
Proof.
  exact (load_repeatedly_once Sample.float Sample.int Sample.reader Sample.cities
           2 startup eq_refl eq_refl).
Defined.

Lemma apply_sort_is_the_stable_sort_witness :
  sortable "pop" Sample.cities = true
  ∧ apply_sort (Some "pop") "desc" Sample.cities = ret (reverse Sample.cities)
  ∧ stably_sorted "pop" "desc" Sample.cities (reverse Sample.cities).
Proof.
  split; [reflexivity|]. split; [reflexivity|].
  exact (proj1 (apply_sort_is_the_stable_sort "pop" "desc" Sample.cities
                  (reverse Sample.cities) eq_refl) eq_refl).
Defined.

Lemma sort_unknown_key_witness :
  apply_sort (Some "population") "asc" Sample.cities = raise TypeError
  ∧ apply_sort (Some "population") "asc" (take 1 Sample.cities) = ret (take 1 Sample.cities).
Proof.
  assert (Hunknown : "population" ∉ ["name"; "lat"; "lng"; "tz"; "pop"; "loc"]).
  { intros H. repeat (apply elem_of_cons in H as [H|H]; [discriminate H|]).
    by apply elem_of_nil in H. }
  split.
  - exact (sort_unknown_key "population" "asc" Sample.cities eq_refl Hunknown).
  - exact (sort_unknown_key "population" "asc" (take 1 Sample.cities) eq_refl Hunknown).
Defined.

(** * Further properties of the loader *)

Lemma bind_ret_inv {A B} (m : result A) (k : A → result B) (y : B) :
  bind m k = ret y → ∃ x, m = ret x ∧ k x = ret y.
Proof. destruct m as [e|x]; simpl; [discriminate | eauto]. Qed.

Lemma py_index_nat_ret {A} (l : list A) (i : nat) (x : A) :
  py_index l (Z.of_nat i) = ret x → l !! i = Some x.
Proof.
  rewrite py_index_nat. destruct (l !! i); [|discriminate].
  unfold ret. congruence.
Qed.

Lemma py_index_from_end_ret {A} (l : list A) (k : nat) (x : A) :
  (0 < k)%nat → py_index l (- Z.of_nat k) = ret x →
  (k ≤ length l)%nat ∧ l !! (length l - k)%nat = Some x.
Proof.
  intros Hk. rewrite py_index_from_end by done.
  case_bool_decide; [|discriminate].
  destruct (l !! _); [|discriminate]. unfold ret. intros [= ->]. done.
Qed.

Section LoaderExtras.

Variable py_float : string → option float.
Variable py_int : string → option Z.

Local Abbreviation load_row' := (load_row py_float py_int).
Local Abbreviation load_cities' := (load_cities py_float py_int).
Local Abbreviation well_formed' := (well_formed py_float py_int).
Local Abbreviation row_maps_to' := (row_maps_to py_float py_int).

Lemma float_of_ret (s : string) (f : float) :
  float_of py_float s = ret f → py_float s = Some f.
Proof. unfold float_of. destruct (py_float s); [|discriminate]. unfold ret. congruence. Qed.

Lemma load_row_ret (row : list string) (c : City) :
  load_row' row = ret c → well_formed' row = true ∧ row_maps_to' row c.
Proof.
  unfold load_row. intros H.
  change 1 with (Z.of_nat 1) in H. change 4 with (Z.of_nat 4) in H.
  change 5 with (Z.of_nat 5) in H. change 8 with (Z.of_nat 8) in H.
  change 14 with (Z.of_nat 14) in H. change (-2) with (- Z.of_nat 2) in H.
  apply bind_ret_inv in H as (n & H1%py_index_nat_ret & H).
  apply bind_ret_inv in H as (s4 & H4%py_index_nat_ret & H).
  apply bind_ret_inv in H as (la & Hla%float_of_ret & H).
  apply bind_ret_inv in H as (s5 & H5%py_index_nat_ret & H).
  apply bind_ret_inv in H as (lo & Hlo%float_of_ret & H).
  apply bind_ret_inv in H as (t & Ht & H).
  apply py_index_from_end_ret in Ht as [Hlen2 Ht]; [|lia].
  apply bind_ret_inv in H as (s14 & H14%py_index_nat_ret & H).
  apply bind_ret_inv in H as (p & Hp & H).
  apply bind_ret_inv in H as (lc & H8%py_index_nat_ret & H).
  unfold ret in H. injection H as <-.
  assert (Hpop : if truthy s14 then py_int s14 = Some p else p = 0).
  { destruct (truthy s14).
    - unfold int_of in Hp. destruct (py_int s14); [|discriminate].
      unfold ret in Hp. congruence.
    - unfold ret in Hp. congruence. }
  split.
  - unfold well_formed. rewrite H4, H5, H14, Hla, Hlo.
    pose proof (lookup_lt_Some _ _ _ H14).
    rewrite bool_decide_eq_true_2 by lia.
    rewrite !bool_decide_eq_true_2 by eauto. simpl.
    destruct (truthy s14); simpl; [|done].
    rewrite Hpop. by apply bool_decide_eq_true_2.
  - unfold row_maps_to. simpl. repeat split; eauto.
Qed.

Lemma load_row_ok_iff (row : list string) :
  is_ok (load_row' row) = well_formed' row.
Proof.
  destruct (well_formed' row) eqn:Hwf.
  - destruct (load_row_well_formed py_float py_int row Hwf) as (c & -> & _). done.
  - destruct (load_row' row) as [e|c] eqn:Hrow; [done|].
    apply load_row_ret in Hrow as [Hwf' _]. congruence.
Qed.

(** X4. The load succeeds exactly when every row is well formed, and then it
    yields one record per row, in file order, each read off its row by
    position.  A file with no row loads as the empty table. *)
Theorem load_cities_all_or_nothing (reader : list (list string)) :
  is_ok (load_cities' reader) = forallb well_formed' reader
  ∧ (∀ records, load_cities' reader = ret records →
       length records = length reader ∧ Forall2 row_maps_to' reader records).
Proof.
  induction reader as [|row rest [IHok IHrec]]; simpl.
  - split; [done|]. intros records [= <-]. split; [done | constructor].
  - split.
    + rewrite <- load_row_ok_iff, <- IHok.
      destruct (load_row' row); [done|]. simpl.
      by destruct (load_cities' rest).
    + intros records H.
      apply bind_ret_inv in H as (c & Hrow & H).
      apply bind_ret_inv in H as (cs & Hrest & H).
      unfold ret in H. injection H as <-.
      destruct (IHrec cs Hrest) as [Hlen Hall].
      apply load_row_ret in Hrow as [_ Hmap].
      split; [simpl; congruence | by constructor].
Qed.

Lemma py_index_insert_ne (row : list string) (i j : nat) (x : string) :
  i ≠ j → py_index (<[i:=x]> row) (Z.of_nat j) = py_index row (Z.of_nat j).
Proof. intros Hne. by rewrite !py_index_nat, list_lookup_insert_ne. Qed.

(** X5. The loader reads the columns 1, 4, 5, 8, 14 and the one before the
    last, and no other: whatever another column holds, the row gives the
    same record, or fails with the same exception. *)
Theorem load_row_ignores_other_columns (row : list string) (i : nat) (x : string) :
  i ∉ [1; 4; 5; 8; 14; length row - 2]%nat →
  load_row py_float py_int (<[i:=x]> row) = load_row py_float py_int row.
Proof.
  intros Hi.
  assert (Hne : ∀ j, j ∈ [1; 4; 5; 8; 14; length row - 2]%nat → i ≠ j).
  { intros j Hj ->. by apply Hi. }
  unfold load_row.
  change 1 with (Z.of_nat 1). change 4 with (Z.of_nat 4).
  change 5 with (Z.of_nat 5). change 8 with (Z.of_nat 8).
  change 14 with (Z.of_nat 14). change (-2) with (- Z.of_nat 2).
  rewrite !py_index_insert_ne
    by (apply Hne; repeat (first [apply list_elem_of_here | apply list_elem_of_further])).
  rewrite !py_index_from_end by lia. rewrite length_insert.
  rewrite list_lookup_insert_ne; [reflexivity|].
  apply Hne. repeat (first [apply list_elem_of_here | apply list_elem_of_further]).
Qed.

Lemma load_row_short (row : list string) :
  (length row < 5)%nat → load_row' row = raise IndexError.
Proof.
  intros Hlen. unfold load_row.
  change 1 with (Z.of_nat 1). change 4 with (Z.of_nat 4).
  rewrite !py_index_nat.
  destruct (row !! 1%nat) as [n|]; [|reflexivity]. simpl.
  rewrite (lookup_ge_None_2 row 4) by lia. reflexivity.
Qed.

(** X6. A row of fewer than five fields, such as the empty row of a blank
    line, makes the whole load fail with [IndexError] when the rows
    before it convert; the rows after it are not looked at. *)
Theorem load_cities_short_row (pre : list (list string)) (row : list string)
    (post : list (list string)) :
  Forall (λ r, well_formed' r = true) pre →
  (length row < 5)%nat →
  load_cities' (pre ++ row :: post) = raise IndexError.
Proof.
  intros Hpre Hlen.
  apply load_cities_first_failure; [|by apply load_row_short].
  eapply Forall_impl; [exact Hpre|]. intros r Hr. simpl in Hr.
  by rewrite load_row_ok_iff.
Qed.

End LoaderExtras.

(** * Further properties of the query pipeline *)

Section FilterExtras.

Variable partial_ratio : string → string → float.
Variable lower : string → string.

Local Abbreviation filter_q' := (filter_q partial_ratio lower).
Local Abbreviation apply_filters' := (apply_filters partial_ratio lower).
Local Abbreviation passes' := (passes partial_ratio lower).

Lemma filter_always {A} (l : list A) : filter (λ _ : A, true) l = l.
Proof. induction l as [|a l IH]; [done|]. by rewrite filter_cons_True, IH. Qed.

Lemma filter_q_selection (q : option string) (data : list City) :
  filter_q' q data
  = filter (λ c, (match q with
                  | Some s => if truthy s then matches partial_ratio lower s (name c) else true
                  | None => true
                  end : bool)) data.
Proof.
  unfold filter_q. destruct q as [s|]; [destruct (truthy s)|];
    by rewrite ?filter_always.
Qed.

Lemma filter_tz_selection (tz' : option string) (data : list City) :
  filter_tz tz' data
  = filter (λ c, (match tz' with
                  | Some s => if truthy s then bool_decide (tz c = s) else true
                  | None => true
                  end : bool)) data.
Proof.
  unfold filter_tz. destruct tz' as [s|]; [destruct (truthy s)|];
    rewrite ?filter_always; try done.
  apply list_filter_iff. intros c. by rewrite bool_decide_spec.
Qed.

Lemma filter_min_pop_selection (min_pop : option Z) (data : list City) :
  filter_min_pop min_pop data
  = filter (λ c, (match min_pop with
                  | Some m => bool_decide (m ≤ pop c)
                  | None => true
                  end : bool)) data.
Proof.
  unfold filter_min_pop. destruct min_pop as [m|]; rewrite ?filter_always; try done.
  apply list_filter_iff. intros c. by rewrite bool_decide_spec.
Qed.

(** Each step is the selection of the records that satisfy a condition,
    possibly the condition that is always true. *)
Lemma filter_steps_are_selections (q tz' : option string) (min_pop : option Z) :
  Forall (λ f : list City → list City,
            ∃ cond : City → bool, ∀ data, f data = filter (λ c, cond c) data)
         [filter_q' q; filter_tz tz'; filter_min_pop min_pop].
Proof.
  repeat (apply Forall_cons; split); [| | |apply Forall_nil; exact I];
    eexists; intros data.
  - apply filter_q_selection.
  - apply filter_tz_selection.
  - apply filter_min_pop_selection.
Qed.

Lemma selections_commute {A} (f g : list A → list A) :
  (∃ cond : A → bool, ∀ l, f l = filter (λ a, cond a) l) →
  (∃ cond : A → bool, ∀ l, g l = filter (λ a, cond a) l) →
  ∀ l, f (g l) = g (f l).
Proof.
  intros [cf Hf] [cg Hg] l. rewrite !Hf, !Hg, !list_filter_filter.
  apply list_filter_iff. intros a. tauto.
Qed.

Lemma apply_each_permutation {A} (fs gs : list (A → A)) :
  (∀ f g, f ∈ fs → g ∈ fs → ∀ x, f (g x) = g (f x)) →
  fs ≡ₚ gs → ∀ x, apply_each fs x = apply_each gs x.
Proof.
  intros Hcomm Hperm. revert Hcomm.
  induction Hperm as [|f fs gs Hperm IH|f g fs|fs gs hs H1 IH1 H2 IH2];
    intros Hcomm x; simpl.
  - done.
  - f_equal. apply IH. intros a b Ha Hb. apply Hcomm; by right.
  - apply Hcomm; [left | right; left].
  - rewrite IH1 by done. apply IH2.
    intros a b Ha Hb. apply Hcomm; by rewrite H1.
Qed.

Lemma apply_filters_selection (q tz' : option string) (min_pop : option Z)
    (data : list City) :
  apply_filters' q tz' min_pop data = filter (λ c, passes' q tz' min_pop c) data.
Proof.
  unfold apply_filters.
  rewrite filter_min_pop_selection, filter_tz_selection, filter_q_selection.
  rewrite !list_filter_filter. apply list_filter_iff. intros c.
  unfold passes. rewrite !andb_True. tauto.
Qed.

Lemma elem_of_apply_filters (q tz' : option string) (min_pop : option Z)
    (data : list City) (c : City) :
  c ∈ apply_filters' q tz' min_pop data ↔ c ∈ data ∧ passes' q tz' min_pop c = true.
Proof.
  rewrite apply_filters_selection, list_elem_of_filter, Is_true_true. tauto.
Qed.

(** X8. The three filters may run in any order: whichever way the steps are
    arranged the result is the list the handler computes, which holds,
    in table order, exactly the records that satisfy every condition
    the request switches on. *)
Theorem filters_any_order (q tz' : option string) (min_pop : option Z)
    (data : list City) :
  (∀ steps, steps ≡ₚ [filter_q' q; filter_tz tz'; filter_min_pop min_pop] →
     apply_each steps data = apply_filters' q tz' min_pop data)
  ∧ apply_filters' q tz' min_pop data
    = filter (λ c, passes' q tz' min_pop c) data.
Proof.
  split; [|apply apply_filters_selection].
  pose proof (filter_steps_are_selections q tz' min_pop) as Hsel.
  rewrite Forall_forall in Hsel.
  intros steps Hperm.
  rewrite (apply_each_permutation steps
             [filter_min_pop min_pop; filter_tz tz'; filter_q' q]).
  - reflexivity.
  - intros f g Hf Hg. rewrite Hperm in Hf, Hg.
    apply selections_commute; by apply Hsel.
  - rewrite Hperm. symmetry.
    exact (reverse_Permutation [filter_q' q; filter_tz tz'; filter_min_pop min_pop]).
Qed.

End FilterExtras.

Section PageExtras.

Context {A : Type}.
Implicit Types (data : list A) (offset limit : Z).

Lemma paginate_sublist data offset limit : paginate data offset limit `sublist_of` data.
Proof. unfold paginate, slice. etrans; [apply sublist_take | apply sublist_drop]. Qed.

(** X9. A page shows records of the sequence in their order, none twice;
    for an offset and a limit that are not negative it holds [limit]
    records, or as many as are left from [offset] on when they are
    fewer: none at all from the end of the sequence on. *)
Theorem paginate_page data offset limit :
  paginate data offset limit `sublist_of` data
  ∧ (0 ≤ offset → 0 ≤ limit →
     length (paginate data offset limit)
     = (Z.to_nat limit `min` (length data - Z.to_nat offset))%nat).
Proof.
  split; [apply paginate_sublist|].
  intros Ho Hl. rewrite paginate_nonneg by done.
  by rewrite length_take, length_drop.
Qed.

Lemma elem_of_paginate_take data offset limit (a : A) :
  0 ≤ offset → 0 ≤ limit →
  a ∈ paginate data offset limit → a ∈ take (Z.to_nat (offset + limit)) data.
Proof.
  intros Ho Hl. rewrite paginate_nonneg by done.
  replace (Z.to_nat (offset + limit)) with (Z.to_nat offset + Z.to_nat limit)%nat by lia.
  rewrite <- take_take_drop. intros Ha. apply elem_of_app. by right.
Qed.

Lemma elem_of_paginate_drop data offset limit (n : nat) (a : A) :
  Z.of_nat n ≤ offset → 0 ≤ limit →
  a ∈ paginate data offset limit → a ∈ drop n data.
Proof.
  intros Ho Hl. rewrite paginate_nonneg by lia. intros Ha.
  apply (sublist_subseteq _ _ (sublist_take _ _)) in Ha.
  replace (Z.to_nat offset) with (n + (Z.to_nat offset - n))%nat in Ha by lia.
  rewrite <- drop_drop in Ha.
  by apply (sublist_subseteq _ _ (sublist_drop _ _)) in Ha.
Qed.

End PageExtras.

Section SortedAny.

Context {A : Type}.
Variable lt : A → A → result bool.

Lemma insert_perm (x : A) (l out : list A) :
  insert lt x l = ret out → out ≡ₚ x :: l.
Proof.
  revert out. induction l as [|y ys IH]; simpl; intros out H.
  - unfold ret in H. by injection H as <-.
  - apply bind_ret_inv in H as (b & _ & H). destruct b.
    + apply bind_ret_inv in H as (r & Hr & H). unfold ret in H. injection H as <-.
      rewrite (IH r Hr). apply Permutation_swap.
    + unfold ret in H. by injection H as <-.
Qed.

Lemma sort_asc_perm (l out : list A) : sort_asc lt l = ret out → out ≡ₚ l.
Proof.
  revert out. induction l as [|x xs IH]; simpl; intros out H.
  - unfold ret in H. by injection H as <-.
  - apply bind_ret_inv in H as (s & Hs & H).
    rewrite (insert_perm x s out H). by rewrite (IH s Hs).
Qed.

(** Whatever the comparison, a sort that returns returns a
    rearrangement of its input. *)
Lemma sorted_perm (reversed : bool) (l out : list A) :
  sorted lt reversed l = ret out → out ≡ₚ l.
Proof.
  unfold sorted. destruct reversed; [|apply sort_asc_perm].
  intros H. apply bind_ret_inv in H as (r & Hr & H).
  unfold ret in H. injection H as <-.
  by rewrite reverse_Permutation, (sort_asc_perm _ _ Hr), reverse_Permutation.
Qed.

End SortedAny.

Lemma apply_sort_perm (sort : option string) (order : string) (data out : list City) :
  apply_sort sort order data = ret out → out ≡ₚ data.
Proof.
  unfold apply_sort. destruct sort as [k|]; [destruct (truthy k)|].
  - apply sorted_perm.
  - unfold ret. by intros [= <-].
  - unfold ret. by intros [= <-].
Qed.

(** X10. Over a sorted result the pages are in order too: when the key
    orders the records, no record of a later page sorts strictly before
    a record of an earlier page, in the direction that was asked for. *)
Theorem sorted_pages_ordered (k order : string) (data out : list City)
    (offset1 limit1 offset2 limit2 : Z) (a b : City) :
  sortable k data = true →
  apply_sort (Some k) order data = ret out →
  0 ≤ offset1 → 0 ≤ limit1 → offset1 + limit1 ≤ offset2 → 0 ≤ limit2 →
  a ∈ paginate out offset1 limit1 → b ∈ paginate out offset2 limit2 →
  if String.eqb order "desc"
  then key_ltb k a b = false else key_ltb k b a = false.
Proof.
  intros Hsortable Hout Ho1 Hl1 Ho2 Hl2 Ha Hb.
  assert (Hsorted : StronglySorted
            (if String.eqb order "desc"
             then flip (not_after (key_ltb k)) else not_after (key_ltb k)) out).
  { destruct (truthy k) eqn:Hk.
    - apply sortable_Forall in Hsortable.
      destruct (sorted_spec (λ x y, value_lt (get x k) (get y k)) (key_ltb k)
                  (λ c, comparable (get c k) = true)
                  (key_ltb_defined k) (key_ltb_asym k) (key_ltb_negtrans k)
                  (String.eqb order "desc") data Hsortable)
        as (out' & Hout' & _ & Hs & _).
      unfold apply_sort in Hout. rewrite Hk, Hout' in Hout.
      unfold ret in Hout. injection Hout as <-.
      by destruct (String.eqb order "desc").
    - destruct k; [|discriminate]. destruct data as [|c0 rest].
      + simpl in Hout. unfold ret in Hout. injection Hout as <-.
        destruct (String.eqb order "desc"); constructor.
      + discriminate Hsortable. }
  apply elem_of_paginate_take in Ha; [|done..].
  apply (elem_of_paginate_drop _ _ _ (Z.to_nat (offset1 + limit1))) in Hb; [|lia|done].
  rewrite <- (take_drop (Z.to_nat (offset1 + limit1)) out) in Hsorted.
  pose proof (StronglySorted_app_1_elem_of _ _ _ a b Hsorted Ha Hb) as Hab.
  by destruct (String.eqb order "desc").
Qed.

(** * Further properties of the handler *)

Section HandlerExtras.

Variable partial_ratio : string → string → float.
Variable lower : string → string.
Variable py_float : string → option float.
Variable py_int : string → option Z.
Variable reader : list (list string).

Local Abbreviation load_cities' := (load_cities py_float py_int).
Local Abbreviation cached' := (load_cities_cached py_float py_int reader).
Local Abbreviation query' := (query partial_ratio lower).
Local Abbreviation answer' := (answer partial_ratio lower).
Local Abbreviation passes' := (passes partial_ratio lower).
Local Abbreviation get_cities' := (get_cities partial_ratio lower py_float py_int reader).
Local Abbreviation serve_all' := (serve_all partial_ratio lower py_float py_int reader).

Lemma cached_ret (st : State) (table : list City) :
  (cached' st).2 = ret table →
  cache (cached' st).1 = Some table
  ∧ match cache st with
    | Some t => t = table ∧ (cached' st).1 = st
    | None => load_cities' reader = ret table
    end.
Proof.
  unfold load_cities_cached. destruct (cache st) as [t|] eqn:Hc; simpl.
  - unfold ret. intros [= ->]. by rewrite Hc.
  - intros ->. done.
Qed.

(** X11. Every page the handler returns is made of records of the table it
    holds from then on, each of which satisfies all the conditions the
    request switches on; with a limit that is not negative the page has
    at most that many records; and without a sort key it shows the
    records in table order. *)
Theorem get_cities_sound (p : Query.t) (st st' : State) (page : list City) :
  get_cities' p st = (st', ret page) →
  has_filter p = true
  ∧ ∃ table, cache st' = Some table
      ∧ (∀ c, c ∈ page →
           c ∈ table
           ∧ passes' (Query.q p) (Query.tz p) (Query.min_pop p) c = true)
      ∧ (0 ≤ Query.limit p → Z.of_nat (length page) ≤ Query.limit p)
      ∧ (truthy_opt (Query.sort p) = false → page `sublist_of` table).
Proof.
  intros H.
  destruct (has_filter p) eqn:Hp;
    [|rewrite (get_cities_rejects _ _ _ _ _ p st Hp) in H; discriminate H].
  split; [done|].
  rewrite (get_cities_proceeds _ _ _ _ _ p st Hp) in H.
  injection H as Hst Hres.
  apply bind_ret_inv in Hres as (table & Htable & Hq).
  apply cached_ret in Htable as [Hcache _]. rewrite Hst in Hcache.
  exists table. split; [exact Hcache|].
  unfold query in Hq. apply bind_ret_inv in Hq as (out & Hout & Hpage).
  unfold ret in Hpage. injection Hpage as <-.
  split; [|split].
  - intros c Hc.
    apply (sublist_subseteq _ _ (paginate_sublist out _ _)) in Hc.
    rewrite (apply_sort_perm _ _ _ _ Hout) in Hc.
    by apply elem_of_apply_filters in Hc.
  - intros Hl. unfold paginate.
    pose proof (slice_length_le out (Query.offset p) (Query.offset p + Query.limit p)
                  ltac:(lia)). lia.
  - intros Hsort.
    assert (out = apply_filters partial_ratio lower (Query.q p) (Query.tz p) (Query.min_pop p) table)
      as ->.
    { unfold apply_sort in Hout. destruct (Query.sort p) as [k|]; simpl in Hsort.
      - rewrite Hsort in Hout. unfold ret in Hout. congruence.
      - unfold ret in Hout. congruence. }
    etrans; [apply paginate_sublist|].
    unfold apply_filters.
    etrans; [apply filter_min_pop_sublist|].
    etrans; [apply filter_tz_sublist | apply filter_q_sublist].
Qed.

(** X13. Over any sequence of requests, started with an empty cache or with
    the table already cached, each request is answered from the one
    table the file holds: a request without a filter with the status-400
    rejection, any other with the query on that table.  The file is
    read once, by the first request that passes validation, and not at
    all if the table was cached or if no request passes. *)
Theorem serve_all_one_table (table : list City) (ps : list Query.t) (st : State) :
  load_cities' reader = ret table →
  cache st = None ∨ cache st = Some table →
  (serve_all' ps st).2 = answer' table <$> ps
  ∧ file_reads (serve_all' ps st).1
    = (file_reads st
       + match cache st with
         | None => if existsb has_filter ps then 1 else 0
         | Some _ => 0
         end)%nat.
Proof.
  intros Hload. revert st. induction ps as [|p rest IH]; intros st Hst.
  { simpl. split; [done|]. destruct (cache st); lia. }
  simpl. unfold answer at 1.
  destruct (has_filter p) eqn:Hp.
  - rewrite (get_cities_proceeds _ _ _ _ _ p st Hp).
    unfold load_cities_cached.
    destruct Hst as [Hst|Hst]; rewrite Hst.
    + rewrite Hload. simpl.
      destruct (IH (mkState (Some table) (S (file_reads st))) ltac:(by right))
        as [IHa IHr].
      destruct (serve_all' rest _) as [st2 rs]. simpl in *.
      split; [by rewrite IHa | lia].
    + simpl. destruct (IH st ltac:(by right)) as [IHa IHr].
      destruct (serve_all' rest st) as [st2 rs]. simpl in *.
      rewrite Hst in IHr. split; [by rewrite IHa | lia].
  - rewrite (get_cities_rejects _ _ _ _ _ p st Hp).
    destruct (IH st Hst) as [IHa IHr].
    destruct (serve_all' rest st) as [st2 rs]. simpl in *.
    split; [by rewrite IHa | exact IHr].
Qed.





End HandlerExtras.

(** * The ways a request can fail *)

Lemma bind_raise_inv {A B} (m : result A) (k : A → result B) (e : exn) :
  bind m k = raise e → m = raise e ∨ ∃ x, m = ret x ∧ k x = raise e.
Proof. destruct m as [e'|x]; simpl; unfold raise; [intros [= ->]; by left | eauto]. Qed.

Lemma py_index_raise {A} (l : list A) (i : Z) (e : exn) :
  py_index l i = raise e → e = IndexError.
Proof.
  unfold py_index, raise, ret.
  destruct (_ && _); [destruct (l !! _)|]; congruence.
Qed.

Section SortedFailures.

Context {A : Type}.
Variable lt : A → A → result bool.
Variable e0 : exn.
Hypothesis lt_raises : ∀ a b e, lt a b = raise e → e = e0.

Lemma insert_raise (x : A) (l : list A) (e : exn) : insert lt x l = raise e → e = e0.
Proof.
  induction l as [|y ys IH]; simpl; [discriminate|]. intros H.
  apply bind_raise_inv in H as [H|(b & _ & H)]; [by apply lt_raises in H|].
  destruct b; [|discriminate].
  apply bind_raise_inv in H as [H|(r & _ & H)]; [by apply IH | discriminate].
Qed.

Lemma sort_asc_raise (l : list A) (e : exn) : sort_asc lt l = raise e → e = e0.
Proof.
  induction l as [|x xs IH]; simpl; [discriminate|]. intros H.
  apply bind_raise_inv in H as [H|(s & _ & H)]; [by apply IH|].
  by apply insert_raise in H.
Qed.

Lemma sorted_raise (reversed : bool) (l : list A) (e : exn) :
  sorted lt reversed l = raise e → e = e0.
Proof.
  unfold sorted. destruct reversed; [|apply sort_asc_raise]. intros H.
  apply bind_raise_inv in H as [H|(r & _ & H)]; [by apply sort_asc_raise in H|].
  discriminate.
Qed.

End SortedFailures.

Lemma apply_sort_raise (sort : option string) (order : string) (data : list City)
    (e : exn) :
  apply_sort sort order data = raise e → e = TypeError ∧ truthy_opt sort = true.
Proof.
  unfold apply_sort. destruct sort as [k|]; [|discriminate]. simpl.
  destruct (truthy k); [|discriminate]. intros H. split; [|done].
  apply sorted_raise with (e0 := TypeError) in H; [done|].
  intros a b e'. destruct (get a k), (get b k); simpl; unfold raise, ret; congruence.
Qed.

Section FailureKinds.

Variable partial_ratio : string → string → float.
Variable lower : string → string.
Variable py_float : string → option float.
Variable py_int : string → option Z.
Variable reader : list (list string).

Local Abbreviation load_row' := (load_row py_float py_int).
Local Abbreviation load_cities' := (load_cities py_float py_int).
Local Abbreviation get_cities' := (get_cities partial_ratio lower py_float py_int reader).

Lemma load_row_raise (row : list string) (e : exn) :
  load_row' row = raise e →
  e = IndexError
  ∨ (∃ s, s ∈ row ∧ py_float s = None ∧ e = ValueError ToFloat s)
  ∨ (∃ s, s ∈ row ∧ truthy s = true ∧ py_int s = None ∧ e = ValueError ToInt s).
Proof.
  unfold load_row. intros H.
  change 4 with (Z.of_nat 4) in H. change 5 with (Z.of_nat 5) in H.
  change 14 with (Z.of_nat 14) in H.
  assert (Hfloat : ∀ s f, float_of py_float s = raise f →
            py_float s = None ∧ f = ValueError ToFloat s).
  { intros s f. unfold float_of. destruct (py_float s); [discriminate|].
    unfold raise. intros [= <-]. done. }
  apply bind_raise_inv in H as [H|(n & _ & H)]; [left; by apply py_index_raise in H|].
  apply bind_raise_inv in H as [H|(s4 & H4 & H)]; [left; by apply py_index_raise in H|].
  apply py_index_nat_ret, list_elem_of_lookup_2 in H4.
  apply bind_raise_inv in H as [H|(la & _ & H)].
  { right; left. apply Hfloat in H as [? ->]. eauto. }
  apply bind_raise_inv in H as [H|(s5 & H5 & H)]; [left; by apply py_index_raise in H|].
  apply py_index_nat_ret, list_elem_of_lookup_2 in H5.
  apply bind_raise_inv in H as [H|(lo & _ & H)].
  { right; left. apply Hfloat in H as [? ->]. eauto. }
  apply bind_raise_inv in H as [H|(t & _ & H)]; [left; by apply py_index_raise in H|].
  apply bind_raise_inv in H as [H|(s14 & H14 & H)]; [left; by apply py_index_raise in H|].
  apply py_index_nat_ret, list_elem_of_lookup_2 in H14.
  apply bind_raise_inv in H as [H|(p & _ & H)].
  { right; right. destruct (truthy s14) eqn:Ht; [|discriminate].
    unfold int_of in H. destruct (py_int s14) eqn:Hi; [discriminate|].
    unfold raise in H. injection H as <-. eauto 6. }
  apply bind_raise_inv in H as [H|(lc & _ & H)]; [left; by apply py_index_raise in H|].
  discriminate.
Qed.

(** X7. When the conversion of the rows that [csv.reader] yields fails
    (the body of the loop, lines 65-71), the exception is that of the
    first row that does not convert, all rows before it converting, and
    it is [IndexError] for a row that is too short, the [ValueError] of
    [float] on a field of that row that is no number, or the
    [ValueError] of [int] on a non-empty field of that row that is no
    integer.  The failures of opening, decoding and splitting the file
    are outside the model and outside this statement. *)
Theorem load_cities_failure_kinds (e : exn) :
  load_cities' reader = raise e →
  ∃ pre row post, reader = (pre ++ row :: post)%list
    ∧ Forall (λ r, is_ok (load_row' r) = true) pre
    ∧ load_row' row = raise e
    ∧ (e = IndexError
       ∨ (∃ s, s ∈ row ∧ py_float s = None ∧ e = ValueError ToFloat s)
       ∨ (∃ s, s ∈ row ∧ truthy s = true ∧ py_int s = None
               ∧ e = ValueError ToInt s)).
Proof.
  induction reader as [|row rest IH]; simpl; [discriminate|]. intros H.
  apply bind_raise_inv in H as [H|(c & Hc & H)].
  - exists [], row, rest. split; [done|]. split; [constructor|].
    split; [exact H | by apply load_row_raise].
  - apply bind_raise_inv in H as [H|(cs & _ & H)]; [|discriminate].
    destruct (IH H) as (pre & r & post & -> & Hpre & Hr & Hkind).
    exists (row :: pre), r, post. split; [done|]. split; [|done].
    constructor; [by rewrite Hc | exact Hpre].
Qed.

(** X12. A request fails in one of three ways: rejected by the validation,
    with status 400 and the state untouched; with the exception of a
    load that failed, the cache having been empty; or with the
    [TypeError] of a sort, a sort key having been given and the table
    being loaded. *)
Theorem get_cities_failures (p : Query.t) (st st' : State) (e : exn) :
  get_cities' p st = (st', raise e) →
  (has_filter p = false ∧ e = HTTPException 400 no_filter_detail ∧ st' = st)
  ∨ (has_filter p = true ∧ cache st = None ∧ load_cities' reader = raise e
     ∧ st' = mkState None (S (file_reads st)))
  ∨ (has_filter p = true ∧ e = TypeError ∧ truthy_opt (Query.sort p) = true
     ∧ ∃ table, cache st' = Some table).
Proof.
  intros H. destruct (has_filter p) eqn:Hp.
  - right. rewrite (get_cities_proceeds _ _ _ _ _ p st Hp) in H.
    injection H as Hst Hres.
    apply bind_raise_inv in Hres as [Hres|(table & Htable & Hq)].
    + left. unfold load_cities_cached in *.
      destruct (cache st) as [t|]; [discriminate Hres|]. simpl in *.
      rewrite Hres in Hst. done.
    + right. unfold query in Hq.
      apply bind_raise_inv in Hq as [Hq|(out & _ & Hq)]; [|discriminate].
      apply apply_sort_raise in Hq as [-> Hsort].
      repeat split; try done. exists table.
      unfold load_cities_cached in *.
      destruct (cache st) as [t|] eqn:Hc; simpl in *.
      * unfold ret in Htable. injection Htable as ->. by rewrite <- Hst.
      * rewrite Htable in Hst. by rewrite <- Hst.
  - left. rewrite (get_cities_rejects _ _ _ _ _ p st Hp) in H.
    unfold raise in H. injection H as <- <-. done.
Qed.

End FailureKinds.

(** * Instances of the further properties *)

Lemma load_row_ignores_other_columns_witness :
  load_row Sample.float Sample.int (<[3%nat := "Londinium"]> Sample.london)
  = load_row Sample.float Sample.int Sample.london.
Proof.
  apply load_row_ignores_other_columns.
  intros H. repeat (apply elem_of_cons in H as [H|H]; [discriminate H|]).
  by apply elem_of_nil in H.
Defined.

Lemma load_cities_short_row_witness :
  load_cities Sample.float Sample.int ([Sample.london] ++ [] :: [Sample.new_york])%list
  = raise IndexError.
Proof.
  apply load_cities_short_row.
  - apply Forall_cons. split; [reflexivity|]. apply Forall_nil. exact I.
  - simpl. lia.
Defined.

Lemma load_cities_failure_kinds_witness :
  ∃ pre row post, [Sample.london; Sample.new_york_bad] = (pre ++ row :: post)%list
    ∧ Forall (λ r, is_ok (load_row Sample.float Sample.int r) = true) pre
    ∧ load_row Sample.float Sample.int row = raise (ValueError ToFloat "north")
    ∧ (ValueError ToFloat "north" = IndexError
       ∨ (∃ s, s ∈ row ∧ Sample.float s = None
               ∧ ValueError ToFloat "north" = ValueError ToFloat s)
       ∨ (∃ s, s ∈ row ∧ truthy s = true ∧ Sample.int s = None
               ∧ ValueError ToFloat "north" = ValueError ToInt s)).
Proof.
  exact (load_cities_failure_kinds Sample.float Sample.int
           [Sample.london; Sample.new_york_bad] (ValueError ToFloat "north") eq_refl).
Defined.

Lemma sorted_pages_ordered_witness :
  Forall (λ a, Forall (λ b, key_ltb "pop" a b = false)
                 (paginate (reverse Sample.cities) 1 1))
         (paginate (reverse Sample.cities) 0 1).
Proof.
  apply Forall_forall. intros a Ha. apply Forall_forall. intros b Hb.
  apply (sorted_pages_ordered "pop" "desc" Sample.cities (reverse Sample.cities) 0 1 1 1);
    try reflexivity; try lia; assumption.
Defined.

Lemma get_cities_sound_witness :
  has_filter (Query.mk (Some "Lond") None None 50 0 None "asc") = true
  ∧ ∃ table, cache (mkState (Some Sample.cities) 1) = Some table
      ∧ (∀ c, c ∈ take 1 Sample.cities →
           c ∈ table ∧ passes Sample.partial_ratio Sample.lower (Some "Lond") None None c = true)
      ∧ (0 ≤ 50 → Z.of_nat (length (take 1 Sample.cities)) ≤ 50)
      ∧ (truthy_opt None = false → take 1 Sample.cities `sublist_of` table).
Proof.
  exact (get_cities_sound Sample.partial_ratio Sample.lower Sample.float Sample.int Sample.reader
           (Query.mk (Some "Lond") None None 50 0 None "asc")
           startup (mkState (Some Sample.cities) 1) (take 1 Sample.cities) eq_refl).
Defined.

Lemma get_cities_failures_witness :
  (has_filter (Query.mk None None (Some 1) 50 0 (Some "population") "asc") = false
   ∧ TypeError = HTTPException 400 no_filter_detail
   ∧ mkState (Some Sample.cities) 1 = startup)
  ∨ (has_filter (Query.mk None None (Some 1) 50 0 (Some "population") "asc") = true
     ∧ cache startup = None
     ∧ load_cities Sample.float Sample.int Sample.reader = raise TypeError
     ∧ mkState (Some Sample.cities) 1 = mkState None (S (file_reads startup)))
  ∨ (has_filter (Query.mk None None (Some 1) 50 0 (Some "population") "asc") = true
     ∧ TypeError = TypeError
     ∧ truthy_opt (Some "population") = true
     ∧ ∃ table, cache (mkState (Some Sample.cities) 1) = Some table).
Proof.
  exact (get_cities_failures Sample.partial_ratio Sample.lower Sample.float Sample.int Sample.reader
           (Query.mk None None (Some 1) 50 0 (Some "population") "asc")
           startup (mkState (Some Sample.cities) 1) TypeError eq_refl).
Defined.

Lemma serve_all_one_table_witness :
  (serve_all Sample.partial_ratio Sample.lower Sample.float Sample.int Sample.reader
     [Query.default; Sample.any_city; Sample.any_city] startup).2
  = answer Sample.partial_ratio Sample.lower Sample.cities
      <$> [Query.default; Sample.any_city; Sample.any_city]
  ∧ file_reads (serve_all Sample.partial_ratio Sample.lower Sample.float Sample.int Sample.reader
                  [Query.default; Sample.any_city; Sample.any_city] startup).1
    = 1%nat.
Proof.
  exact (serve_all_one_table Sample.partial_ratio Sample.lower Sample.float Sample.int Sample.reader
           Sample.cities [Query.default; Sample.any_city; Sample.any_city] startup
           eq_refl (or_introl eq_refl)).
Defined.

